(** * node-editor: the flow engine of [src/App.tsx]

    A shallow embedding of the functions of the [App] component that
    build, load and run a flow: [addCodeNode], [addArithmeticNode],
    [addHttpNode], [onConnect], [loadFlow] and [executeFlow], and the
    properties of them that the specification states. *)

From Stdlib Require Import ZArith Lia.
From Stdlib Require Import Floats.SpecFloat.
From stdpp Require Import gmap strings list fin_maps pretty.

(** ** JavaScript values *)

(** A JavaScript Number is an IEEE 754 binary64 value; [spec_float] at
    precision 53 and maximal exponent 1024 is that type, with its
    operations rounding to nearest, ties to even. *)
Module Number.

Abbreviation number := spec_float.

Definition prec : Z := 53.
Definition emax : Z := 1024.

Definition ofZ (z : Z) : number := binary_normalize prec emax z 0 false.

Definition NaN : number := S754_nan.
Definition Infinity : number := S754_infinity false.
Definition NegInfinity : number := S754_infinity true.

Definition add : number → number → number := SFadd prec emax.
Definition sub : number → number → number := SFsub prec emax.
Definition mul : number → number → number := SFmul prec emax.
Definition div : number → number → number := SFdiv prec emax.

Definition is_zero (x : number) : bool :=
  match x with S754_zero _ => true | _ => false end.

Definition is_finite (x : number) : bool :=
  match x with S754_zero _ | S754_finite _ _ _ => true | _ => false end.

(** The sign that [Number::toString] prints: ["-"] in front of a negative
    finite value and of [-Infinity]; both zeros print as ["0"] and NaN
    as ["NaN"]. *)
Definition prints_minus (x : number) : bool :=
  match x with
  | S754_finite s _ _ | S754_infinity s => s
  | _ => false
  end.

(** The value denoted by the text [`${x}`] read back as an expression:
    the digits that [Number::toString] chooses denote [x] itself, the
    identifiers [NaN] and [Infinity] denote those values, and a leading
    ["-"] is the unary minus, which is exact.  Only the sign of zero is
    lost, since [-0] prints as ["0"]. *)
Definition reread (x : number) : number :=
  match x with S754_zero _ => S754_zero false | _ => x end.

#[global] Instance number_eq_dec : EqDecision number.
Proof. solve_decision. Defined.

End Number.
Import Number.

(** The values a node's [data] object holds. *)
Inductive value :=
  | VUndefined
  | VNull
  | VBool (b : bool)
  | VNum (x : number)
  | VStr (s : string).

#[global] Instance value_eq_dec : EqDecision value.
Proof. solve_decision. Defined.

(** Reading a property of a plain object: a missing key reads [undefined]. *)
Definition get (o : gmap string value) (k : string) : value :=
  default VUndefined (o !! k).

(** ** Nodes and edges *)

Record node := Node {
  id : string;
  type : string;
  position : number * number;
  data : gmap string value
}.

Record edge := Edge {
  source : string;
  target : string
}.

#[global] Instance edge_eq_dec : EqDecision edge.
Proof. solve_decision. Defined.

Definition ids (nodes : list node) : list string := id <$> nodes.

(** ** executeFlow, first half: the tables and Kahn's loop *)

(** The entries of [indegree]: an integer count, or the NaN that
    [undefined++] produces for a key that was never initialised. *)
Inductive count :=
  | Cnt (z : Z)
  | CntNaN.

#[global] Instance count_eq_dec : EqDecision count.
Proof. solve_decision. Defined.

Definition incr (c : option count) : count :=
  match c with Some (Cnt z) => Cnt (z + 1) | _ => CntNaN end.

Definition decr (c : option count) : count :=
  match c with Some (Cnt z) => Cnt (z - 1) | _ => CntNaN end.

(** [indegree] is an object literal [{}], so the key ["__proto__"] is the
    accessor of [Object.prototype]: storing a number under it is ignored,
    and reading it yields that prototype, never a number.  ([adj] stores
    arrays, which that accessor keeps and hands back, and [nodeMap] is built
    by [Object.fromEntries], which defines own properties: both behave as
    plain maps.) *)
Definition proto : string := "__proto__".

Definition ind_set (k : string) (c : count) (ind : gmap string count)
  : gmap string count :=
  if decide (k = proto) then ind else <[k := c]> ind.

Definition ind_get (k : string) (ind : gmap string count) : option count :=
  if decide (k = proto) then None else ind !! k.

(** [nodes.forEach(n => { adj[n.id] = []; indegree[n.id] = 0; })] *)
Fixpoint initTables (nodes : list node)
    (adj : gmap string (list string)) (ind : gmap string count)
  : gmap string (list string) * gmap string count :=
  match nodes with
  | [] => (adj, ind)
  | n :: ns => initTables ns (<[id n := []]> adj) (ind_set (id n) (Cnt 0) ind)
  end.

(** [edges.forEach(e => { adj[e.source].push(e.target); indegree[e.target]++; })]
    [None] is the TypeError of [undefined.push] for a source that is not a
    node id. *)
Fixpoint addEdges (es : list edge)
    (adj : gmap string (list string)) (ind : gmap string count)
  : option (gmap string (list string) * gmap string count) :=
  match es with
  | [] => Some (adj, ind)
  | e :: es' =>
      match adj !! source e with
      | None => None
      | Some tgts =>
          addEdges es' (<[source e := tgts ++ [target e]]> adj)
                   (ind_set (target e) (incr (ind_get (target e) ind)) ind)
      end
  end.

(** [nodes.filter(n => indegree[n.id] === 0).map(n => n.id)] *)
Definition initQueue (nodes : list node) (ind : gmap string count)
  : list string :=
  id <$> filter (λ n, ind_get (id n) ind = Some (Cnt 0)) nodes.

(** The body of [for (const tgt of adj[id])]. *)
Fixpoint relax (tgts : list string) (ind : gmap string count)
    (queue : list string) : gmap string count * list string :=
  match tgts with
  | [] => (ind, queue)
  | tgt :: rest =>
      let ind' := ind_set tgt (decr (ind_get tgt ind)) ind in
      relax rest ind'
            (if decide (ind_get tgt ind' = Some (Cnt 0)) then queue ++ [tgt]
             else queue)
  end.

Inductive loopResult :=
  | Ordered (order : list string)
  | NotIterable
  | OutOfFuel.

(** [while (queue.length) { ... }], one unit of fuel per iteration.
    [NotIterable] is the TypeError of iterating [adj[id]] when it is
    [undefined]. *)
Fixpoint kahn (fuel : nat) (adj : gmap string (list string))
    (ind : gmap string count) (queue order : list string) : loopResult :=
  match queue with
  | [] => Ordered order
  | id :: queue' =>
      match fuel with
      | O => OutOfFuel
      | S fuel' =>
          match adj !! id with
          | None => NotIterable
          | Some tgts =>
              let '(ind', queue'') := relax tgts ind queue' in
              kahn fuel' adj ind' queue'' (order ++ [id])
          end
      end
  end.

Inductive schedule :=
  | Scheduled (order : list string)
  | ScheduleThrew
  | ScheduleDiverged.

(** Lines 67 to 85 of [executeFlow]: from the node and edge lists to the
    list [order]. *)
Definition scheduleOrder (nodes : list node) (edges : list edge) : schedule :=
  let '(adj0, ind0) := initTables nodes ∅ ∅ in
  match addEdges edges adj0 ind0 with
  | None => ScheduleThrew
  | Some (adj, ind) =>
      match kahn (length nodes) adj ind (initQueue nodes ind) [] with
      | Ordered order => Scheduled order
      | NotIterable => ScheduleThrew
      | OutOfFuel => ScheduleDiverged
      end
  end.

(** ** executeFlow, second half: running the nodes in [order] *)

(** [Object.fromEntries(nodes.map(n => [n.id, n]))]: each id refers to a node
    object of the array; a later node with the same id replaces an earlier
    one.  The node objects are shared with [nodes], so the map holds the
    position of the node in the array. *)
Fixpoint buildNodeMap (nodes : list node) (i : nat) (m : gmap string nat)
  : gmap string nat :=
  match nodes with
  | [] => m
  | n :: ns => buildNodeMap ns (S i) (<[id n := i]> m)
  end.

Definition nodeMap (nodes : list node) : gmap string nat :=
  buildNodeMap nodes 0 ∅.

(** [node.data.k = v] on the node at position [i]. *)
Definition setField (k : string) (v : value) (n : node) : node :=
  {| id := id n; type := type n; position := position n;
     data := <[k := v]> (data n) |}.

Definition setData (i : nat) (k : string) (v : value) (nodes : list node)
  : list node :=
  alter (setField k v) i nodes.

(** The four operators the node editor offers. *)
Inductive operator := Plus | Minus | Times | Divide.

Definition parseOperator (v : value) : option operator :=
  match v with
  | VStr s =>
      if decide (s = "+") then Some Plus
      else if decide (s = "-") then Some Minus
      else if decide (s = "*") then Some Times
      else if decide (s = "/") then Some Divide
      else None
  | _ => None
  end.

Definition applyOperator (o : operator) : number → number → number :=
  match o with
  | Plus => Number.add
  | Minus => Number.sub
  | Times => Number.mul
  | Divide => Number.div
  end.

(** What a call of a function built from source text does: it returns a
    value or throws. *)
Inductive completion :=
  | Returned (v : value)
  | Threw.

(** [Function(`return ${a}${op}${b}`)()] for numbers [a], [b] and one of the
    four operators.  The text is the print of [a], the operator character and
    the print of [b]; it parses as one binary expression over the two
    numbers read back, except that ["-"] followed by the minus sign of a
    negative [b] is the token ["--"], on which the [Function] constructor
    throws a SyntaxError. *)
Definition evalTemplate (a : number) (o : operator) (b : number) : completion :=
  match o with
  | Minus =>
      if prints_minus b then Threw
      else Returned (VNum (Number.sub (reread a) (reread b)))
  | _ => Returned (VNum (applyOperator o (reread a) (reread b)))
  end.

(** What running a script or a request does, as far as [executeFlow] sees
    it: it ends normally with a result, or it fails with a message. *)
Inductive outcome (A : Type) :=
  | Done (a : A)
  | Failed (message : string).
Arguments Done {A} a.
Arguments Failed {A} message.

Section Engine.

(** The host the flow runs in: the state of everything outside the graph,
    the effect of running a script ([new Function(code)()]), of a request
    ([fetch(url, { method }).then(r => r.text())]) and of evaluating a
    template text that is not two numbers around one of the four
    operators. *)
Variable world : Type.
Variable runScript : value → world → outcome unit * world.
Variable fetchText : value → value → world → outcome string * world.
Variable hostEval : value → value → value → world → completion * world.

Record runState := RunState {
  rs_nodes : list node;
  rs_world : world;
  rs_console : list string
}.

(** [Function(`return ${a}${op}${b}`)()] for the three values read from
    [node.data]. *)
Definition evalArithmetic (a op b : value) (w : world) : completion * world :=
  match a, parseOperator op, b with
  | VNum x, Some o, VNum y => (evalTemplate x o y, w)
  | _, _, _ => hostEval a op b w
  end.

(** The [switch (node.type)] of the execution loop, for the node at
    position [i] ([nodeMap] only holds positions of the array).  [inr] is an
    exception that leaves [executeFlow]. *)
Definition execNode (i : nat) (st : runState) : runState + runState :=
  match rs_nodes st !! i with
  | None => inl st
  | Some n =>
      if decide (type n = "codeNode") then
        match runScript (get (data n) "code") (rs_world st) with
        | (Done _, w) => inl (RunState (rs_nodes st) w (rs_console st))
        | (Failed e, w) =>
            inl (RunState (rs_nodes st) w (rs_console st ++ [e]))
        end
      else if decide (type n = "arithmeticNode") then
        match evalArithmetic (get (data n) "a") (get (data n) "op")
                             (get (data n) "b") (rs_world st) with
        | (Returned v, w) =>
            inl (RunState (setData i "result" v (rs_nodes st)) w
                          (rs_console st))
        | (Threw, w) => inr (RunState (rs_nodes st) w (rs_console st))
        end
      else if decide (type n = "httpNode") then
        match fetchText (get (data n) "url") (get (data n) "method")
                        (rs_world st) with
        | (Done body, w) =>
            inl (RunState (setData i "response" (VStr body) (rs_nodes st))
                          w (rs_console st))
        | (Failed e, w) =>
            inl (RunState (setData i "response" (VStr e) (rs_nodes st))
                          w (rs_console st))
        end
      else inl st
  end.

Inductive flowResult :=
  | Completed (st : runState)
  | Aborted (st : runState)
  | Diverged.

(** [for (const id of order) { const node = nodeMap[id]; if (!node) continue; ... }] *)
Fixpoint execOrder (order : list string) (nm : gmap string nat)
    (st : runState) : flowResult :=
  match order with
  | [] => Completed st
  | id :: rest =>
      match nm !! id with
      | None => execOrder rest nm st
      | Some i =>
          match execNode i st with
          | inl st' => execOrder rest nm st'
          | inr st' => Aborted st'
          end
      end
  end.

(** [executeFlow]: [Completed] carries the nodes handed to [setNodes];
    [Aborted] carries the node objects as the exception left them. *)
Definition executeFlow (nodes : list node) (edges : list edge) (w : world)
  : flowResult :=
  match scheduleOrder nodes edges with
  | ScheduleThrew => Aborted (RunState nodes w [])
  | ScheduleDiverged => Diverged
  | Scheduled order => execOrder order (nodeMap nodes) (RunState nodes w [])
  end.

End Engine.

Arguments rs_nodes {world} _.
Arguments rs_world {world} _.
Arguments rs_console {world} _.
Arguments RunState {world} _ _ _.
Arguments Completed {world} _.
Arguments Aborted {world} _.
Arguments Diverged {world}.

(** ** loadFlow *)

(** What [JSON.parse] returns. *)
#[local] Unset Elimination Schemes.
Inductive json :=
  | JNull
  | JBool (b : bool)
  | JNum (x : number)
  | JStr (s : string)
  | JArr (items : list json)
  | JObj (fields : gmap string json).
#[local] Set Elimination Schemes.

(** [flow.k] for a parsed document [flow] and [k] one of ["nodes"] and
    ["edges"]: [None] is the TypeError of reading a property of [null];
    [Some None] is [undefined], which is what an object without the key, an
    array, a string, a number and a boolean all give. *)
Definition property (flow : json) (k : string) : option (option json) :=
  match flow with
  | JNull => None
  | JObj fields => Some (fields !! k)
  | _ => Some None
  end.

Definition truthy (j : json) : bool :=
  match j with
  | JNull => false
  | JBool b => b
  | JNum x => negb (Number.is_zero x || bool_decide (x = NaN))
  | JStr s => negb (bool_decide (s = ""))
  | JArr _ | JObj _ => true
  end.

(** [v || []] *)
Definition orEmpty (v : option json) : json :=
  match v with
  | Some j => if truthy j then j else JArr []
  | None => JArr []
  end.

Inductive loadResult :=
  | NoFile
  | LoadThrew
  | Loaded (nodes edges : json).

(** [reader.onload], given what [JSON.parse(reader.result)] does: [None] is
    its SyntaxError. *)
Definition onload (parsed : option json) : loadResult :=
  match parsed with
  | None => LoadThrew
  | Some flow =>
      match property flow "nodes", property flow "edges" with
      | Some ns, Some es => Loaded (orEmpty ns) (orEmpty es)
      | _, _ => LoadThrew
      end
  end.

(** [loadFlow]: [file] is [e.target.files[0]], as the outcome of parsing
    its text. *)
Definition loadFlow (file : option (option json)) : loadResult :=
  match file with
  | None => NoFile
  | Some parsed => onload parsed
  end.

(** How the rest of the component reads the loaded state: the [id] of each
    node, the [source] and [target] of each edge. *)
Definition jsonString (j : option json) : option string :=
  match j with Some (JStr s) => Some s | _ => None end.

Definition jsonId (j : json) : option string :=
  match j with JObj f => jsonString (f !! "id") | _ => None end.

Definition jsonEdge (j : json) : option edge :=
  match j with
  | JObj f =>
      match jsonString (f !! "source"), jsonString (f !! "target") with
      | Some s, Some t => Some (Edge s t)
      | _, _ => None
      end
  | _ => None
  end.

Definition jsonIds (j : json) : list string :=
  match j with JArr l => omap jsonId l | _ => [] end.

Definition jsonEdges (j : json) : list edge :=
  match j with JArr l => omap jsonEdge l | _ => [] end.

(** ** Adding, deleting and connecting *)

(** [(nodes.length + 1).toString()] *)
Definition nextId (nodes : list node) : string := pretty (length nodes + 1).

Definition addCodeNode (nodes : list node) : list node :=
  nodes ++ [Node (nextId nodes) "codeNode" (ofZ 100, ofZ 100)
                 {["code" := VStr "// write JS here"]}].

Definition addArithmeticNode (nodes : list node) : list node :=
  nodes ++ [Node (nextId nodes) "arithmeticNode" (ofZ 200, ofZ 200)
                 (<["a" := VNum (ofZ 0)]> (<["b" := VNum (ofZ 0)]>
                  (<["op" := VStr "+"]> {["result" := VNull]})))].

Definition addHttpNode (nodes : list node) : list node :=
  nodes ++ [Node (nextId nodes) "httpNode" (ofZ 300, ofZ 300)
                 (<["url" := VStr ""]> (<["method" := VStr "GET"]>
                  {["response" := VNull]}))].

Definition initialNodes : list node :=
  [Node "1" "default" (ofZ 250, ofZ 5) {["label" := VStr "Start Node"]}].

(** Modelled from the spec: deleting a node is done by React Flow
    ([onNodesChange] and [onEdgesChange] are the library's handlers), whose
    code is not in [src]; the spec says a node is "destroyed by UI delete
    (cascades to incident edges)". *)
Definition deleteNode (k : string) (g : list node * list edge)
  : list node * list edge :=
  (filter (λ n, id n ≠ k) g.1,
   filter (λ e, source e ≠ k ∧ target e ≠ k) g.2).

Section Connect.

(** [addEdge] is React Flow's; [onConnect] hands it the connection and the
    current edges, and stores what it returns. *)
Variable addEdge : edge → list edge → list edge.

Definition onConnect (params : edge) (g : list node * list edge)
  : list node * list edge :=
  (g.1, addEdge params g.2).

End Connect.

(** The user's actions on the node list. *)
Inductive action :=
  | AddCode
  | AddArithmetic
  | AddHttp
  | Delete (k : string).

Definition act (a : action) (g : list node * list edge)
  : list node * list edge :=
  match a with
  | AddCode => (addCodeNode g.1, g.2)
  | AddArithmetic => (addArithmeticNode g.1, g.2)
  | AddHttp => (addHttpNode g.1, g.2)
  | Delete k => deleteNode k g
  end.

Definition is_add (a : action) : Prop :=
  match a with Delete _ => False | _ => True end.

Definition acts (l : list action) (g : list node * list edge)
  : list node * list edge :=
  foldl (λ g a, act a g) g l.

(** ** The vocabulary of the properties *)

(** The graphs that the properties of the scheduler are stated for: ids
    are unique, every edge joins two nodes of the graph, and no id is
    ["__proto__"], the one id that the object [indegree] cannot hold a
    count for. *)
Record wf_graph (nodes : list node) (edges : list edge) : Prop := WfGraph {
  wf_nodup : NoDup (ids nodes);
  wf_plain : proto ∉ ids nodes;
  wf_source : ∀ e, e ∈ edges → source e ∈ ids nodes;
  wf_target : ∀ e, e ∈ edges → target e ∈ ids nodes
}.

Definition edge_rel (edges : list edge) (s t : string) : Prop :=
  Edge s t ∈ edges.

(** [v] lies on a cycle: a path of one or more edges leads from [v] back
    to [v]. *)
Definition on_cycle (edges : list edge) (v : string) : Prop :=
  tc (edge_rel edges) v v.

Definition acyclic (edges : list edge) : Prop :=
  ∀ v, ¬ on_cycle edges v.

(** [a] occurs in [l] at a position before one of [b]. *)
Definition precedes (l : list string) (a b : string) : Prop :=
  ∃ i j, i < j ∧ l !! i = Some a ∧ l !! j = Some b.

(** The targets of the edges that leave [s], in the order of [edges]. *)
Definition targetsOf (edges : list edge) (s : string) : list string :=
  target <$> filter (λ e, source e = s) edges.

(** The number of edges into [v] whose source is not in [done]. *)
Definition remaining (edges : list edge) (done : list string) (v : string)
  : nat :=
  length (filter (λ e, target e = v ∧ source e ∉ done) edges).

Definition is_pos (c : count) : Prop :=
  match c with Cnt z => (0 < z)%Z | CntNaN => False end.

#[global] Instance is_pos_dec c : Decision (is_pos c).
Proof. destruct c; simpl; apply _. Defined.

(** The number of keys of [indegree] whose count is still positive. *)
Definition waiting (ind : gmap string count) : nat :=
  size (filter (λ kv : string * count, is_pos kv.2) ind).

(** What the loop has left to do: the queue, and the keys that can still
    enter it. *)
Definition potential (ind : gmap string count) (queue : list string) : nat :=
  length queue + waiting ind.

Definition pos_at (o : option count) : Prop :=
  match o with Some c => is_pos c | None => False end.

#[global] Instance pos_at_dec o : Decision (pos_at o).
Proof. destruct o; simpl; apply _. Defined.

(** Every id the loop can pop has an entry in [adj]. *)
Definition covers (adj : gmap string (list string)) (ind : gmap string count)
    (queue : list string) : Prop :=
  (∀ k, k ∈ queue → is_Some (adj !! k)) ∧
  (∀ k z, ind !! k = Some (Cnt z) → is_Some (adj !! k)).

(** The number of occurrences of [v] in [l]. *)
Definition occ (v : string) (l : list string) : nat :=
  length (filter (λ x, x = v) l).

(** The number of edges from [s] to [t]. *)
Definition edgesBetween (edges : list edge) (s t : string) : nat :=
  length (filter (λ e, source e = s ∧ target e = t) edges).

(** The number of edges into [v]. *)
Definition indegreeOf (edges : list edge) (v : string) : nat :=
  length (filter (λ e, target e = v) edges).

(** What holds of the loop's variables at the head of each iteration, on a
    well-formed graph: [indegree] counts the edges from sources not yet
    ordered, an id is in the order or the queue exactly when that count is
    zero, and the sources of the edges into an ordered id come before it. *)
Record kahn_inv (nodes : list node) (edges : list edge)
    (ind : gmap string count) (queue order : list string) : Prop := KahnInv {
  inv_nodup : NoDup (order ++ queue);
  inv_ids : ∀ v, v ∈ order ++ queue → v ∈ ids nodes;
  inv_count : ∀ v, v ∈ ids nodes →
    ind_get v ind = Some (Cnt (Z.of_nat (remaining edges order v)));
  inv_ready : ∀ v, v ∈ ids nodes →
    (remaining edges order v = 0 ↔ v ∈ order ++ queue);
  inv_before : ∀ e, e ∈ edges → target e ∈ order →
    precedes order (source e) (target e)
}.

(** [l] continues a walk from [y] along [rel]. *)
Fixpoint is_walk {A} (rel : A → A → Prop) (y : A) (l : list A) : Prop :=
  match l with
  | [] => True
  | z :: l' => rel y z ∧ is_walk rel z l'
  end.

(** The state a run ends in, when it ends. *)
Definition finalState {world} (r : flowResult world) : option (runState world) :=
  match r with
  | Completed st | Aborted st => Some st
  | Diverged => None
  end.

Definition stepState {world} (r : runState world + runState world)
  : runState world :=
  match r with inl st | inr st => st end.

(** [nodes[i].data[k]] *)
Definition field (nodes : list node) (i : nat) (k : string) : value :=
  match nodes !! i with
  | Some n => get (data n) k
  | None => VUndefined
  end.

(** ** A host to run examples in *)

(** The host has no state; the script [throw new Error('boom')] fails with
    the message ["boom"] and every other script ends normally; every request
    fails as an unreachable server does; no other text is evaluated. *)
Module Sample.

Definition runScript (code : value) (w : unit) : outcome unit * unit :=
  if decide (code = VStr "throw new Error('boom')") then (Failed "boom", w)
  else (Done tt, w).

Definition fetchText (url method : value) (w : unit) : outcome string * unit :=
  (Failed "Failed to fetch", w).

Definition hostEval (a op b : value) (w : unit) : completion * unit :=
  (Threw, w).

Definition executeFlow := executeFlow unit runScript fetchText hostEval.
Definition execNode := execNode unit runScript fetchText hostEval.

Definition plain (k : string) : node :=
  Node k "default" (ofZ 0, ofZ 0) ∅.

Definition arithmetic (k : string) (a : Z) (op : string) (b : Z) : node :=
  Node k "arithmeticNode" (ofZ 200, ofZ 200)
       (<["a" := VNum (ofZ a)]> (<["b" := VNum (ofZ b)]>
        (<["op" := VStr op]> {["result" := VNull]}))).

Definition code (k : string) (src : string) : node :=
  Node k "codeNode" (ofZ 100, ofZ 100) {["code" := VStr src]}.

Definition http (k : string) (url : string) (response : value) : node :=
  Node k "httpNode" (ofZ 300, ofZ 300)
       (<["url" := VStr url]> (<["method" := VStr "GET"]>
        {["response" := response]})).

(** An arithmetic node next to a cycle of two nodes. *)
Definition cyclicNodes : list node :=
  [arithmetic "1" 6 "*" 3; plain "2"; plain "3"].
Definition cyclicEdges : list edge := [Edge "2" "3"; Edge "3" "2"].

(** The chain A, B, C, declared in reverse. *)
Definition chainNodes : list node := [plain "C"; plain "B"; plain "A"].
Definition chainEdges : list edge := [Edge "A" "B"; Edge "B" "C"].

Definition quotientNode : node := arithmetic "1" 4 "/" 0.
Definition productNode : node := arithmetic "1" 6 "*" 3.

(** The product node as a document can hold it, with an error message
    left in its data. *)
Definition staleProductNode : node :=
  setField "lastError" (VStr "division by zero") productNode.

Definition requestNode : node :=
  http "1" "http://localhost:9/" (VStr "previous body").

(** A script that throws, followed by an arithmetic node. *)
Definition throwingNodes : list node :=
  [code "1" "throw new Error('boom')"; arithmetic "2" 6 "*" 3].
Definition throwingEdges : list edge := [Edge "1" "2"].

(** [{ "nodes": [] }] *)
Definition noEdgesDocument : json := JObj {["nodes" := JArr []]}.

(** [{ "nodes": [{ "id": "1" }],
       "edges": [{ "source": "1", "target": "ghost" }] }] *)
Definition danglingDocument : json :=
  JObj (<["nodes" := JArr [JObj {["id" := JStr "1"]}]]>
        {["edges" := JArr [JObj (<["source" := JStr "1"]>
                                 {["target" := JStr "ghost"]})]]}).

End Sample.

(** ** The vocabulary of the further properties *)

(** [v] is a node of a cycle or can be reached from one. *)
Definition downstream_of_cycle (edges : list edge) (v : string) : Prop :=
  ∃ c, on_cycle edges c ∧ rtc (edge_rel edges) c v.

(** What a run may change of a node: nothing but the [result] of an
    arithmetic node and the [response] of an http node. *)
Definition run_changes (n n' : node) : Prop :=
  id n' = id n ∧ type n' = type n ∧ position n' = position n ∧
  ∀ k, data n' !! k ≠ data n !! k →
       (type n = "arithmeticNode" ∧ k = "result") ∨
       (type n = "httpNode" ∧ k = "response").

(** What a run that has reached node [n] leaves in it, [n'] being the node
    afterwards: an arithmetic node with two numbers around one of the four
    operators holds the value of its template in [result], an http node
    holds a text in [response]. *)
Definition holds_run_result (n n' : node) : Prop :=
  (type n = "arithmeticNode" →
   ∀ x o y, get (data n) "a" = VNum x →
            parseOperator (get (data n) "op") = Some o →
            get (data n) "b" = VNum y →
            evalTemplate x o y = Returned (get (data n') "result")) ∧
  (type n = "httpNode" → ∃ s, get (data n') "response" = VStr s).

(** The two [indegree] objects hold the same for every node id, and the
    first holds no count for any other key. *)
Definition agree_on (keys : list string) (ind ind' : gmap string count)
  : Prop :=
  (∀ v, v ∈ keys → ind_get v ind = ind_get v ind') ∧
  (∀ v z, v ∉ keys → ind_get v ind ≠ Some (Cnt z)).

(** ** The code editor, the start-up and the autosave *)

(** The [onChange] of the code editor of node [k]:
    [nds.map(n => n.id === id ? { ...n, data: { code: value } } : n)] *)
Definition editCode (k : string) (text : string) (nodes : list node)
  : list node :=
  (λ n, if decide (id n = k)
        then {| id := id n; type := type n; position := position n;
                data := {["code" := VStr text]} |}
        else n) <$> nodes.

(** [stored?.k]: [undefined] for [null] as for every value that is no object
    with the key. *)
Definition optionalProperty (stored : json) (k : string) : option json :=
  match stored with
  | JObj fields => fields !! k
  | _ => None
  end.

(** The array [initialNodes], as a document holds it. *)
Definition initialNodesJson : json :=
  JArr [JObj (<["id" := JStr "1"]> (<["type" := JStr "default"]>
               (<["data" := JObj {["label" := JStr "Start Node"]}]>
                {["position" := JObj (<["x" := JNum (ofZ 250)]>
                                      {["y" := JNum (ofZ 5)]})]})))].

(** The first render: [slot] is what [JSON.parse] makes of the stored text,
    [None] when nothing (or the empty text) is stored, which reads as
    ['null'], and [Some None] when the text does not parse.  The result is
    the initial value of the node state and of the edge state, [None] when
    the parse throws. *)
Definition startup (slot : option (option json)) : option (json * json) :=
  match slot with
  | None => Some (initialNodesJson, JArr [])
  | Some None => None
  | Some (Some stored) =>
      Some (match optionalProperty stored "nodes" with
            | Some ns => if truthy ns then ns else initialNodesJson
            | None => initialNodesJson
            end,
            orEmpty (optionalProperty stored "edges"))
  end.

(** What [JSON.parse] reads back from the text that [JSON.stringify] writes
    for a number: [NaN] and the infinities are written as [null], and the
    sign of zero is lost. *)
Definition numberToJson (x : number) : json :=
  if Number.is_finite x then JNum (reread x) else JNull.

(** The same for a value of a [data] object: a property that holds
    [undefined] is left out. *)
Definition valueToJson (v : value) : option json :=
  match v with
  | VUndefined => None
  | VNull => Some JNull
  | VBool b => Some (JBool b)
  | VNum x => Some (numberToJson x)
  | VStr s => Some (JStr s)
  end.

Definition nodeToJson (n : node) : json :=
  JObj (<["id" := JStr (id n)]> (<["type" := JStr (type n)]>
        (<["position" := JObj (<["x" := numberToJson (position n).1]>
                               {["y" := numberToJson (position n).2]})]>
         {["data" := JObj (omap valueToJson (data n))]}))).

Definition edgeToJson (e : edge) : json :=
  JObj (<["source" := JStr (source e)]> {["target" := JStr (target e)]}).

(** The autosave effect: what [JSON.parse] reads back from the text
    [JSON.stringify({ nodes, edges })] that it stores. *)
Definition autosaved (nodes : list node) (edges : list edge) : json :=
  JObj (<["nodes" := JArr (nodeToJson <$> nodes)]>
        {["edges" := JArr (edgeToJson <$> edges)]}).

(** [nodes[i].data[k]] in a document. *)
Definition jsonDataField (nodes : json) (i : nat) (k : string) : option json :=
  match nodes with
  | JArr l =>
      match l !! i with
      | Some (JObj f) =>
          match f !! "data" with
          | Some (JObj d) => d !! k
          | _ => None
          end
      | _ => None
      end
  | _ => None
  end.

(** ** More inputs for the sample host *)
Module Inputs.

(** Two arithmetic nodes that share the id 2, as an add after a delete
    leaves them. *)
Definition twinNodes : list node :=
  [Sample.arithmetic "2" 1 "+" 1; Sample.arithmetic "2" 6 "*" 3].

(** [{a: 1, b: -1, op: '-'}], followed by a product. *)
Definition minusNodes : list node :=
  [Sample.arithmetic "1" 1 "-" (-1); Sample.arithmetic "2" 6 "*" 3].

(** The chain A, [__proto__], C, as a document can hold it. *)
Definition protoChainNodes : list node :=
  [Sample.plain "A"; Sample.plain "__proto__"; Sample.plain "C"].
Definition protoChainEdges : list edge :=
  [Edge "A" "__proto__"; Edge "__proto__" "C"].

(** An edge from node 1 to an id that no node has. *)
Definition strangerEdges : list edge := [Edge "1" "ghost"; Edge "1" "2"].

End Inputs.

(** ** The [indegree] object *)

Lemma ind_get_proto ind : ind_get proto ind = None.
Proof. unfold ind_get. by rewrite decide_True. Qed.

Lemma ind_get_plain k ind : k ≠ proto → ind_get k ind = ind !! k.
Proof. intros Hk. unfold ind_get. by rewrite decide_False. Qed.

Lemma ind_set_proto c ind : ind_set proto c ind = ind.
Proof. unfold ind_set. by rewrite decide_True. Qed.

Lemma ind_set_plain k c ind : k ≠ proto → ind_set k c ind = <[k := c]> ind.
Proof. intros Hk. unfold ind_set. by rewrite decide_False. Qed.

Lemma ind_get_set_eq k c ind : k ≠ proto → ind_get k (ind_set k c ind) = Some c.
Proof.
  intros Hk. unfold ind_get, ind_set. rewrite !decide_False by done.
  apply lookup_insert_eq.
Qed.

Lemma ind_get_set_ne k k' c ind :
  k ≠ k' → ind_get k (ind_set k' c ind) = ind_get k ind.
Proof.
  intros Hk. unfold ind_get, ind_set. repeat case_decide; try done.
  by rewrite lookup_insert_ne.
Qed.

Lemma ind_get_Some_plain k c ind : ind_get k ind = Some c → k ≠ proto.
Proof. unfold ind_get. by case_decide. Qed.

(** ** Termination of Kahn's loop *)

Lemma waiting_insert k c (ind : gmap string count) :
  waiting (<[k := c]> ind) + (if decide (pos_at (ind !! k)) then 1 else 0)
  = waiting ind + (if decide (is_pos c) then 1 else 0).
Proof.
  unfold waiting. rewrite map_filter_insert. simpl.
  assert (Hin : ∀ c0, ind !! k = Some c0 → is_pos c0 →
                size (filter (λ kv : string * count, is_pos kv.2) ind) ≠ 0).
  { intros c0 Hk H0. apply map_size_non_empty_iff. intros He.
    assert (Hl : filter (λ kv : string * count, is_pos kv.2) ind !! k = Some c0)
      by (by apply map_lookup_filter_Some).
    rewrite He, lookup_empty in Hl. done. }
  destruct (decide (is_pos c)) as [Hc|Hc].
  - rewrite map_size_insert, map_lookup_filter.
    destruct (ind !! k) as [c0|] eqn:Hk; simpl; [|lia].
    destruct (decide (is_pos c0)) as [H0|H0].
    + rewrite option_guard_True by done. simpl. done.
    + rewrite option_guard_False by done. simpl. lia.
  - rewrite map_filter_delete, map_size_delete, map_lookup_filter.
    destruct (ind !! k) as [c0|] eqn:Hk; simpl; [|lia].
    destruct (decide (is_pos c0)) as [H0|H0].
    + rewrite option_guard_True by done. simpl.
      specialize (Hin c0 eq_refl H0). lia.
    + rewrite option_guard_False by done. simpl. lia.
Qed.

Lemma relax_step_potential tgt ind queue :
  let ind' := ind_set tgt (decr (ind_get tgt ind)) ind in
  potential ind' (if decide (ind_get tgt ind' = Some (Cnt 0))
                  then queue ++ [tgt] else queue)
  = potential ind queue.
Proof.
  simpl. unfold potential.
  destruct (decide (tgt = proto)) as [->|Hp].
  { rewrite !ind_get_proto, ind_set_proto. by rewrite decide_False. }
  rewrite ind_get_set_eq, ind_set_plain by done.
  pose proof (waiting_insert tgt (decr (ind_get tgt ind)) ind) as Hw.
  rewrite ind_get_plain in * by done.
  destruct (ind !! tgt) as [[z|]|] eqn:Hk; simpl in *;
    repeat case_decide; simplify_eq; rewrite ?length_app; simpl in *;
    try lia; try tauto.
  all: match goal with H : ¬ (Some (Cnt _) = Some (Cnt 0)) |- _ =>
         try (exfalso; apply H; f_equal; f_equal; lia) end.
Qed.

Lemma relax_potential tgts : ∀ ind queue,
  potential (relax tgts ind queue).1 (relax tgts ind queue).2
  = potential ind queue.
Proof.
  induction tgts as [|tgt rest IH]; intros ind queue; simpl; [done|].
  rewrite IH. apply relax_step_potential.
Qed.

Lemma decr_Cnt o z : decr o = Cnt z → o = Some (Cnt (z + 1)).
Proof.
  destruct o as [[z'|]|]; simpl; intros H; simplify_eq.
  do 2 f_equal. lia.
Qed.

Lemma incr_Cnt o z : incr o = Cnt z → o = Some (Cnt (z - 1)).
Proof.
  destruct o as [[z'|]|]; simpl; intros H; simplify_eq.
  do 2 f_equal. lia.
Qed.

Lemma relax_covers adj tgts : ∀ ind queue,
  covers adj ind queue →
  covers adj (relax tgts ind queue).1 (relax tgts ind queue).2.
Proof.
  induction tgts as [|tgt rest IH]; intros ind queue [Hq Hc]; simpl; [done|].
  apply IH.
  assert (Hc' : ∀ k z,
    ind_set tgt (decr (ind_get tgt ind)) ind !! k = Some (Cnt z) →
    is_Some (adj !! k)).
  { intros k z. destruct (decide (tgt = proto)) as [->|Hp].
    - rewrite ind_set_proto. apply Hc.
    - rewrite ind_set_plain, ind_get_plain by done.
      destruct (decide (tgt = k)) as [->|Hne].
      + rewrite lookup_insert_eq. intros [= Hd].
        apply decr_Cnt in Hd. eauto.
      + rewrite lookup_insert_ne by done. apply Hc. }
  split; [|done].
  case_decide as Hz; [|done].
  intros k [Hk| ->%list_elem_of_singleton]%elem_of_app; [by apply Hq|].
  assert (Hp := ind_get_Some_plain _ _ _ Hz).
  rewrite ind_get_plain in Hz by done. eauto.
Qed.

Lemma kahn_terminates adj fuel : ∀ ind queue order,
  covers adj ind queue →
  potential ind queue ≤ fuel →
  ∃ order', kahn fuel adj ind queue order = Ordered order' ∧
            length order' ≤ length order + potential ind queue.
Proof.
  induction fuel as [|fuel IH]; intros ind queue order Hcov Hfuel.
  - destruct queue as [|k q]; [|unfold potential in Hfuel; simpl in Hfuel; lia].
    simpl. eexists. split; [done|]. lia.
  - destruct queue as [|k q]; simpl.
    { eexists. split; [done|]. lia. }
    destruct Hcov as [Hq Hc].
    destruct (Hq k) as [tgts Hk]; [by left|]. rewrite Hk.
    pose proof (relax_potential tgts ind q) as Hpot.
    pose proof (relax_covers adj tgts ind q) as Hcov'.
    destruct (relax tgts ind q) as [ind' q'] eqn:Hr. simpl in *.
    destruct (IH ind' q' (order ++ [k])) as (order' & Hrun & Hlen).
    + apply Hcov'. split; [|done]. intros k' Hk'. apply Hq. by right.
    + unfold potential in *. simpl in *. lia.
    + exists order'. split; [done|].
      rewrite length_app in Hlen. unfold potential in *. simpl in *. lia.
Qed.

(** The tables before the loop. *)

Lemma initTables_adj nodes : ∀ adj ind k,
  (initTables nodes adj ind).1 !! k
  = if decide (k ∈ ids nodes) then Some [] else adj !! k.
Proof.
  induction nodes as [|n ns IH]; intros adj ind k.
  { cbn [initTables fst]. case_decide as H; [|done].
    by apply not_elem_of_nil in H. }
  cbn [initTables]. rewrite IH. unfold ids. rewrite fmap_cons. fold (ids ns).
  destruct (decide (k = id n)) as [->|Hne].
  - rewrite lookup_insert_eq.
    rewrite (decide_True (P := id n ∈ id n :: ids ns)) by (by left).
    by destruct (decide (id n ∈ ids ns)).
  - rewrite lookup_insert_ne by done.
    destruct (decide (k ∈ ids ns)) as [Hin|Hin].
    + by rewrite decide_True by (by right).
    + rewrite decide_False; [done|]. rewrite elem_of_cons. tauto.
Qed.

Lemma initTables_ind nodes : ∀ adj ind k,
  (initTables nodes adj ind).2 !! k
  = if decide (k ∈ ids nodes ∧ k ≠ proto) then Some (Cnt 0) else ind !! k.
Proof.
  induction nodes as [|n ns IH]; intros adj ind k.
  { cbn [initTables snd]. case_decide as H; [|done].
    destruct H as [H _]. by apply not_elem_of_nil in H. }
  cbn [initTables]. rewrite IH. unfold ids. rewrite fmap_cons. fold (ids ns).
  destruct (decide (k ∈ ids ns ∧ k ≠ proto)) as [[Hin Hp]|Hin].
  - rewrite decide_True; [done|]. split; [by right|done].
  - destruct (decide (k = id n)) as [->|Hne].
    + destruct (decide (id n = proto)) as [Hp|Hp].
      * rewrite Hp, ind_set_proto. rewrite Hp in Hin.
        by rewrite decide_False by tauto.
      * rewrite ind_set_plain, lookup_insert_eq by done.
        rewrite decide_True; [done|]. split; [by left|done].
    + rewrite decide_False by (rewrite elem_of_cons; tauto).
      unfold ind_set. case_decide; [done|]. by rewrite lookup_insert_ne.
Qed.

Lemma addEdges_adj es : ∀ adj ind adj' ind' s l,
  addEdges es adj ind = Some (adj', ind') →
  adj !! s = Some l →
  adj' !! s = Some (l ++ targetsOf es s).
Proof.
  induction es as [|e es IH]; intros adj ind adj' ind' s l Hrun Hs; simpl in *.
  { simplify_eq. by rewrite app_nil_r. }
  destruct (adj !! source e) as [tgts|] eqn:Hsrc; [|done].
  unfold targetsOf. rewrite filter_cons.
  destruct (decide (source e = s)) as [<-|Hne].
  - simplify_eq. erewrite IH; [|done|apply lookup_insert_eq].
    by rewrite <-app_assoc.
  - erewrite IH; [done|done|]. by rewrite lookup_insert_ne.
Qed.

Lemma addEdges_adj_None es : ∀ adj ind adj' ind' s,
  addEdges es adj ind = Some (adj', ind') →
  adj !! s = None → adj' !! s = None.
Proof.
  induction es as [|e es IH]; intros adj ind adj' ind' s Hrun Hs; simpl in *.
  { by simplify_eq. }
  destruct (adj !! source e) as [tgts|] eqn:Hsrc; [|done].
  eapply IH; [done|]. rewrite lookup_insert_ne; [done|]. congruence.
Qed.

Lemma addEdges_ind es : ∀ adj ind adj' ind' k z,
  addEdges es adj ind = Some (adj', ind') →
  ind !! k = Some (Cnt z) → k ≠ proto →
  ind' !! k
  = Some (Cnt (z + Z.of_nat (length (filter (λ e, target e = k) es)))).
Proof.
  induction es as [|e es IH]; intros adj ind adj' ind' k z Hrun Hk Hp;
    simpl in *.
  { simplify_eq. rewrite Hk. do 2 f_equal. lia. }
  destruct (adj !! source e) as [tgts|] eqn:Hsrc; [|done].
  rewrite filter_cons.
  destruct (decide (target e = k)) as [Heq|Hne].
  - erewrite IH; [|done| |done].
    2:{ rewrite Heq, ind_set_plain, ind_get_plain, Hk by done. simpl.
        apply lookup_insert_eq. }
    do 2 f_equal. simpl. lia.
  - erewrite IH; [done|done| |done].
    unfold ind_set. case_decide; [done|]. by rewrite lookup_insert_ne.
Qed.

Lemma addEdges_cnt es : ∀ adj ind adj' ind' k z,
  addEdges es adj ind = Some (adj', ind') →
  ind' !! k = Some (Cnt z) → ∃ z', ind !! k = Some (Cnt z').
Proof.
  induction es as [|e es IH]; intros adj ind adj' ind' k z Hrun Hk; simpl in *.
  { simplify_eq. eauto. }
  destruct (adj !! source e) as [tgts|] eqn:Hsrc; [|done].
  destruct (IH _ _ _ _ _ _ Hrun Hk) as [z' Hz'].
  destruct (decide (target e = proto)) as [Hp|Hp].
  { rewrite Hp, ind_set_proto in Hz'. eauto. }
  rewrite ind_set_plain, ind_get_plain in Hz' by done.
  destruct (decide (target e = k)) as [<-|Hne].
  - rewrite lookup_insert_eq in Hz'. injection Hz' as Hz'.
    apply incr_Cnt in Hz'. eauto.
  - rewrite lookup_insert_ne in Hz' by done. eauto.
Qed.

Lemma addEdges_None es : ∀ adj ind,
  addEdges es adj ind = None → ∃ e, e ∈ es ∧ adj !! source e = None.
Proof.
  induction es as [|e es IH]; intros adj ind Hrun; simpl in *; [done|].
  destruct (adj !! source e) as [tgts|] eqn:Hsrc.
  - destruct (IH _ _ Hrun) as (e' & Hin & Hnone).
    exists e'. split; [by right|].
    destruct (decide (source e = source e')) as [Heq|Hne].
    + by rewrite Heq, lookup_insert_eq in Hnone.
    + by rewrite lookup_insert_ne in Hnone.
  - exists e. split; [by left|done].
Qed.

Lemma size_list_to_set_le (l : list string) :
  size (list_to_set l : gset string) ≤ length l.
Proof.
  induction l as [|x l IH].
  - rewrite list_to_set_nil, size_empty. done.
  - rewrite list_to_set_cons, size_union_alt, size_singleton. simpl.
    assert (size (list_to_set l ∖ {[x]} : gset string)
            ≤ size (list_to_set l : gset string))
      by (apply subseteq_size; intros y Hy;
          apply elem_of_difference in Hy; tauto).
    lia.
Qed.

Lemma waiting_le_nodes (nodes : list node) (ind : gmap string count) :
  (∀ k z, ind !! k = Some (Cnt z) → k ∈ ids nodes) →
  waiting ind ≤ length (filter (λ n, pos_at (ind !! id n)) nodes).
Proof.
  intros Hkeys. unfold waiting.
  rewrite <-(size_dom (D := gset string)).
  rewrite <-(length_fmap id (filter _ nodes)).
  etrans; [|apply size_list_to_set_le].
  apply subseteq_size. intros k Hk.
  apply elem_of_dom in Hk as [c Hc].
  apply map_lookup_filter_Some in Hc as [Hc Hpos]. simpl in Hpos.
  apply elem_of_list_to_set, list_elem_of_fmap.
  destruct c as [z|]; [|done].
  pose proof (Hkeys _ _ Hc) as Hn.
  apply list_elem_of_fmap in Hn as (n & -> & Hn).
  exists n. split; [done|]. apply list_elem_of_filter. split; [|done].
  cbv beta. by rewrite Hc.
Qed.

Lemma filter_disjoint_length {A} (P Q : A → Prop)
    `{∀ x, Decision (P x)} `{∀ x, Decision (Q x)} (l : list A) :
  (∀ x, P x → Q x → False) →
  length (filter P l) + length (filter Q l) ≤ length l.
Proof.
  intros Hdisj. induction l as [|x l IH]; simpl; [done|].
  rewrite !filter_cons.
  destruct (decide (P x)), (decide (Q x)); simpl; try lia.
  exfalso. eauto.
Qed.

Lemma initial_potential nodes (ind : gmap string count) :
  (∀ k z, ind !! k = Some (Cnt z) → k ∈ ids nodes) →
  potential ind (initQueue nodes ind) ≤ length nodes.
Proof.
  intros Hkeys. unfold potential, initQueue. rewrite length_fmap.
  pose proof (waiting_le_nodes nodes ind Hkeys).
  assert (Hdis : ∀ n : node, ind_get (id n) ind = Some (Cnt 0) →
                 pos_at (ind !! id n) → False).
  { intros n Hz Hpos. assert (Hp := ind_get_Some_plain _ _ _ Hz).
    rewrite ind_get_plain in Hz by done. rewrite Hz in Hpos.
    simpl in Hpos. lia. }
  pose proof (filter_disjoint_length _ _ nodes Hdis). simpl in *. lia.
Qed.

Lemma tables_keys nodes edges adj ind :
  addEdges edges (initTables nodes ∅ ∅).1 (initTables nodes ∅ ∅).2
  = Some (adj, ind) →
  (∀ k, is_Some (adj !! k) ↔ k ∈ ids nodes) ∧
  (∀ k z, ind !! k = Some (Cnt z) → k ∈ ids nodes).
Proof.
  intros Hrun. split.
  - intros k. pose proof (initTables_adj nodes ∅ ∅ k) as Hk.
    case_decide as Hin.
    + erewrite addEdges_adj by done. split; eauto.
    + rewrite lookup_empty in Hk. erewrite addEdges_adj_None by done.
      split; [by intros []|done].
  - intros k z Hk. destruct (addEdges_cnt _ _ _ _ _ _ _ Hrun Hk) as [z' Hz'].
    rewrite initTables_ind in Hz'. case_decide as Hin; [tauto|].
    by rewrite lookup_empty in Hz'.
Qed.

Lemma initial_covers nodes edges adj ind :
  addEdges edges (initTables nodes ∅ ∅).1 (initTables nodes ∅ ∅).2
  = Some (adj, ind) →
  covers adj ind (initQueue nodes ind).
Proof.
  intros Hrun. destruct (tables_keys _ _ _ _ Hrun) as [Hadj Hind].
  split.
  - intros k Hk. apply Hadj. unfold initQueue in Hk.
    apply list_elem_of_fmap in Hk as (n & -> & Hn).
    apply list_elem_of_filter in Hn as [_ Hn].
    apply list_elem_of_fmap. eauto.
  - intros k z Hk. apply Hadj. eauto.
Qed.

Lemma scheduleOrder_unfold nodes edges :
  scheduleOrder nodes edges =
  match addEdges edges (initTables nodes ∅ ∅).1 (initTables nodes ∅ ∅).2 with
  | None => ScheduleThrew
  | Some (adj, ind) =>
      match kahn (length nodes) adj ind (initQueue nodes ind) [] with
      | Ordered order => Scheduled order
      | NotIterable => ScheduleThrew
      | OutOfFuel => ScheduleDiverged
      end
  end.
Proof. unfold scheduleOrder. by destruct (initTables nodes ∅ ∅). Qed.

Lemma schedule_terminates nodes edges :
  match scheduleOrder nodes edges with
  | Scheduled order => length order ≤ length nodes
  | ScheduleThrew => ∃ e, e ∈ edges ∧ source e ∉ ids nodes
  | ScheduleDiverged => False
  end.
Proof.
  rewrite scheduleOrder_unfold.
  destruct (addEdges edges _ _) as [[adj ind]|] eqn:Hrun.
  - destruct (tables_keys _ _ _ _ Hrun) as [Hadj Hind].
    destruct (kahn_terminates adj (length nodes) ind (initQueue nodes ind) [])
      as (order & -> & Hlen).
    + by eapply initial_covers.
    + by apply initial_potential.
    + simpl in Hlen. pose proof (initial_potential nodes ind Hind). lia.
  - apply addEdges_None in Hrun as (e & Hin & Hnone).
    exists e. split; [done|]. intros Hsrc.
    rewrite initTables_adj, decide_True in Hnone; done.
Qed.

(** ** What one pass of the inner loop does *)

Lemma occ_cons_eq v l : occ v (v :: l) = S (occ v l).
Proof. unfold occ. by rewrite filter_cons_True. Qed.

Lemma occ_cons_ne v x l : x ≠ v → occ v (x :: l) = occ v l.
Proof. intros. unfold occ. by rewrite filter_cons_False. Qed.

Lemma ind_get_set k k' c ind :
  ind_get k (ind_set k' c ind)
  = if decide (k = k' ∧ k ≠ proto) then Some c else ind_get k ind.
Proof.
  case_decide as H.
  - destruct H as [-> Hp]. by apply ind_get_set_eq.
  - destruct (decide (k = k')) as [->|Hne].
    + assert (k' = proto) as -> by (destruct (decide (k' = proto)); tauto).
      by rewrite ind_set_proto.
    + by apply ind_get_set_ne.
Qed.

Lemma relax_spec tgts : ∀ ind queue,
  ∃ new,
    (relax tgts ind queue).2 = queue ++ new ∧
    NoDup new ∧
    (∀ v, v ∈ new ↔
          ∃ z, ind_get v ind = Some (Cnt z) ∧ (1 ≤ z ≤ Z.of_nat (occ v tgts))%Z) ∧
    (∀ v z, ind_get v ind = Some (Cnt z) →
            ind_get v (relax tgts ind queue).1
            = Some (Cnt (z - Z.of_nat (occ v tgts)))).
Proof.
  induction tgts as [|tgt rest IH]; intros ind queue.
  { exists []. simpl. rewrite app_nil_r. split_and!; [done|constructor| |].
    - intros v. split; [by intros ?%not_elem_of_nil|].
      intros (z & _ & Hz). unfold occ in Hz. simpl in Hz. lia.
    - intros v z ->. do 2 f_equal. unfold occ. simpl. lia. }
  cbn [relax].
  set (ind1 := ind_set tgt (decr (ind_get tgt ind)) ind).
  assert (Hget : ∀ v, ind_get v ind1
    = if decide (v = tgt ∧ v ≠ proto) then Some (decr (ind_get tgt ind))
      else ind_get v ind) by (intros v; apply ind_get_set).
  destruct (IH ind1 (if decide (ind_get tgt ind1 = Some (Cnt 0))
                     then queue ++ [tgt] else queue))
    as (new1 & Hq & Hnd & Hmem & Hlook).
  assert (Hlook' : ∀ v z, ind_get v ind = Some (Cnt z) →
    ind_get v (relax rest ind1
                 (if decide (ind_get tgt ind1 = Some (Cnt 0))
                  then queue ++ [tgt] else queue)).1
    = Some (Cnt (z - Z.of_nat (occ v (tgt :: rest))))).
  { intros v z Hv. destruct (decide (v = tgt)) as [->|Hne].
    - assert (Hp := ind_get_Some_plain _ _ _ Hv).
      rewrite occ_cons_eq. erewrite Hlook.
      2:{ rewrite Hget, decide_True by done. rewrite Hv. done. }
      do 2 f_equal. lia.
    - rewrite occ_cons_ne by done. apply Hlook.
      rewrite Hget, decide_False by tauto. done. }
  destruct (decide (ind_get tgt ind1 = Some (Cnt 0))) as [Hz|Hz].
  - (* [tgt] enters the queue: its count was 1 *)
    assert (Hp := ind_get_Some_plain _ _ _ Hz).
    assert (H1 : ind_get tgt ind = Some (Cnt 1)).
    { rewrite Hget, decide_True in Hz by done. injection Hz as Hz.
      by apply decr_Cnt in Hz. }
    exists (tgt :: new1). split_and!; [| | |done].
    + rewrite Hq. by rewrite <-app_assoc.
    + constructor; [|done]. rewrite Hmem. intros (z & Hz' & Hle).
      rewrite Hz in Hz'. injection Hz' as <-. lia.
    + intros v. rewrite elem_of_cons, Hmem.
      destruct (decide (v = tgt)) as [->|Hne].
      * rewrite occ_cons_eq. split; [|by left].
        intros _. exists 1%Z. split; [done|]. lia.
      * rewrite occ_cons_ne by done.
        rewrite Hget, decide_False by tauto.
        split; [by intros [?|?]|by right].
  - exists new1. split_and!; [done|done| |done].
    intros v. rewrite Hmem.
    destruct (decide (v = tgt)) as [->|Hne].
    + rewrite occ_cons_eq. rewrite Hget in Hz |- *.
      destruct (decide (tgt = tgt ∧ tgt ≠ proto)) as [[_ Hp]|Hp].
      * destruct (ind_get tgt ind) as [[z0|]|] eqn:H0; simpl in *.
        -- split; intros (z & Hz' & Hle); simplify_eq.
           ++ exists z0. split; [done|]. lia.
           ++ exists (z - 1)%Z. split; [done|].
              assert (z ≠ 1%Z); [|lia].
              intros ->. by apply Hz.
        -- split; intros (z & Hz' & Hle); simplify_eq.
        -- split; intros (z & Hz' & Hle); simplify_eq.
      * assert (tgt = proto) as -> by (destruct (decide (tgt = proto)); tauto).
        rewrite ind_get_proto. split; intros (z & Hz' & Hle); simplify_eq.
    + rewrite occ_cons_ne by done.
      rewrite Hget, decide_False by tauto. done.
Qed.

(** ** Counting edges *)

Lemma occ_targetsOf edges s t :
  occ t (targetsOf edges s) = edgesBetween edges s t.
Proof.
  unfold occ, targetsOf, edgesBetween.
  induction edges as [|e es IH]; [done|].
  rewrite !filter_cons.
  destruct (decide (source e = s)) as [Hs|Hs].
  - rewrite fmap_cons, filter_cons.
    destruct (decide (target e = t)) as [Ht|Ht].
    + rewrite decide_True by done. cbn [length]. by rewrite IH.
    + rewrite decide_False by tauto. done.
  - rewrite decide_False by tauto. done.
Qed.

Lemma remaining_snoc edges done k v :
  k ∉ done →
  remaining edges done v
  = remaining edges (done ++ [k]) v + edgesBetween edges k v.
Proof.
  intros Hk. unfold remaining, edgesBetween.
  induction edges as [|e es IH]; [done|].
  rewrite !filter_cons.
  destruct (decide (source e = k)) as [Hs|Hs].
  - destruct (decide (target e = v)) as [Ht|Ht].
    + rewrite (decide_True (P := target e = v ∧ source e ∉ done))
        by (split; [done|congruence]).
      rewrite (decide_False (P := target e = v ∧ source e ∉ done ++ [k])).
      2:{ intros [_ Hn]. apply Hn. rewrite elem_of_app, Hs. right. by left. }
      rewrite decide_True by done. simpl. lia.
    + rewrite !decide_False by tauto. done.
  - rewrite (decide_False (P := source e = k ∧ target e = v)) by tauto.
    destruct (decide (target e = v ∧ source e ∉ done)) as [[Ht Hn]|Hn].
    + rewrite decide_True; [simpl; lia|]. split; [done|].
      rewrite elem_of_app, list_elem_of_singleton. tauto.
    + rewrite decide_False; [done|]. intros [Ht Hn']. apply Hn.
      split; [done|]. intros Hin. apply Hn'. rewrite elem_of_app. by left.
Qed.

Lemma remaining_zero edges done v :
  remaining edges done v = 0 ↔
  ∀ e, e ∈ edges → target e = v → source e ∈ done.
Proof.
  unfold remaining. rewrite length_zero_iff_nil. split.
  - intros Hnil e He Ht. destruct (decide (source e ∈ done)); [done|].
    assert (Hin : e ∈ filter (λ e, target e = v ∧ source e ∉ done) edges)
      by (by apply list_elem_of_filter).
    rewrite Hnil in Hin. by apply not_elem_of_nil in Hin.
  - intros Hall. apply elem_of_nil_inv. intros e He.
    apply list_elem_of_filter in He as [[Ht Hn] He]. eauto.
Qed.

Lemma remaining_pos edges done v :
  remaining edges done v ≠ 0 →
  ∃ e, e ∈ edges ∧ target e = v ∧ source e ∉ done.
Proof.
  unfold remaining. intros Hne.
  destruct (filter _ edges) as [|e l] eqn:Hf; [done|].
  assert (He : e ∈ filter (λ e, target e = v ∧ source e ∉ done) edges)
    by (rewrite Hf; by left).
  apply list_elem_of_filter in He as [[Ht Hn] He]. eauto.
Qed.

Lemma precedes_snoc l a b k : precedes l a b → precedes (l ++ [k]) a b.
Proof.
  intros (i & j & Hij & Hi & Hj). exists i, j.
  split_and!; [done| |]; by apply lookup_app_l_Some.
Qed.

Lemma precedes_last l a k : a ∈ l → precedes (l ++ [k]) a k.
Proof.
  intros [i Hi]%list_elem_of_lookup. exists i, (length l).
  split_and!.
  - by eapply lookup_lt_Some.
  - by apply lookup_app_l_Some.
  - by rewrite list_lookup_middle.
Qed.

Lemma precedes_trans l a b c :
  NoDup l → precedes l a b → precedes l b c → precedes l a c.
Proof.
  intros Hnd (i & j & Hij & Hi & Hj) (j' & k & Hjk & Hj' & Hk).
  assert (j = j') as <- by (by eapply NoDup_lookup).
  exists i, k. split_and!; [lia|done|done].
Qed.

Lemma precedes_irrefl l a : NoDup l → ¬ precedes l a a.
Proof.
  intros Hnd (i & j & Hij & Hi & Hj).
  assert (i = j) by (by eapply NoDup_lookup). lia.
Qed.

Lemma precedes_elem_of l a b : precedes l a b → a ∈ l ∧ b ∈ l.
Proof.
  intros (i & j & _ & Hi & Hj). split; apply list_elem_of_lookup; eauto.
Qed.

(** ** The invariant of Kahn's loop on a well-formed graph *)

Lemma pop_assoc {A} (order : list A) k queue new :
  (order ++ [k]) ++ queue ++ new = (order ++ k :: queue) ++ new.
Proof. by rewrite <-!app_assoc. Qed.

Lemma inv_order_nodup nodes edges ind order :
  kahn_inv nodes edges ind [] order → NoDup order.
Proof.
  intros Hinv. pose proof (inv_nodup _ _ _ _ _ Hinv) as H.
  by rewrite app_nil_r in H.
Qed.

Lemma kahn_inv_step nodes edges ind k queue order :
  wf_graph nodes edges →
  kahn_inv nodes edges ind (k :: queue) order →
  kahn_inv nodes edges
    (relax (targetsOf edges k) ind queue).1
    (relax (targetsOf edges k) ind queue).2 (order ++ [k]).
Proof.
  intros Hwf [Hnd Hids Hcnt Hready Hbefore].
  destruct (relax_spec (targetsOf edges k) ind queue)
    as (new & -> & Hnew & Hmem & Hlook).
  assert (Hk : k ∉ order).
  { apply NoDup_app in Hnd as (_ & Hdis & _). intros Hin.
    apply (Hdis k Hin). by left. }
  assert (Hkid : k ∈ ids nodes) by (apply Hids, elem_of_app; right; by left).
  assert (Hsplit : ∀ v, remaining edges order v
    = remaining edges (order ++ [k]) v + edgesBetween edges k v)
    by (intros v; by apply remaining_snoc).
  assert (Hmem' : ∀ v, v ∈ ids nodes →
    (v ∈ new ↔ remaining edges (order ++ [k]) v = 0 ∧
               remaining edges order v ≠ 0)).
  { intros v Hv. rewrite Hmem, (Hcnt v Hv), occ_targetsOf.
    specialize (Hsplit v). split.
    - intros (z & [= <-] & Hz). lia.
    - intros [H0 Hne]. eexists. split; [done|]. lia. }
  assert (Hnewids : ∀ v, v ∈ new → v ∈ ids nodes).
  { intros v (z & Hz & Hle)%Hmem.
    assert (Hocc : occ v (targetsOf edges k) ≠ 0) by lia.
    unfold occ in Hocc.
    destruct (filter _ (targetsOf edges k)) as [|x l] eqn:Hf; [done|].
    assert (Hx : x ∈ filter (λ x, x = v) (targetsOf edges k))
      by (rewrite Hf; by left).
    apply list_elem_of_filter in Hx as [-> Hx].
    unfold targetsOf in Hx. apply list_elem_of_fmap in Hx as (e & -> & He).
    apply list_elem_of_filter in He as [_ He]. by apply (wf_target _ _ Hwf). }
  split.
  - (* no id is in the order or the queue twice *)
    rewrite pop_assoc. apply NoDup_app. split_and!; [done| |done].
    intros v Hv Hvn. pose proof (Hnewids v Hvn) as Hvid.
    apply (Hmem' v Hvid) in Hvn as [_ Hne]. by apply Hne, Hready.
  - intros v. rewrite pop_assoc.
    intros [Hv|Hv]%elem_of_app; [by apply Hids|by apply Hnewids].
  - intros v Hv. erewrite Hlook by (by apply Hcnt).
    rewrite occ_targetsOf. specialize (Hsplit v). do 2 f_equal. lia.
  - intros v Hv. rewrite pop_assoc, elem_of_app.
    rewrite <-(Hready v Hv). specialize (Hsplit v).
    pose proof (Hmem' v Hv) as Hm. split.
    + intros H0. destruct (decide (remaining edges order v = 0)); [by left|].
      right. by apply Hm.
    + intros [H0|Hin]; [lia|]. by apply Hm.
  - intros e He. rewrite elem_of_app, list_elem_of_singleton.
    intros [Hin|Heq].
    + by apply precedes_snoc, Hbefore.
    + rewrite Heq. apply precedes_last.
      assert (H0 : remaining edges order k = 0).
      { apply Hready; [done|]. apply elem_of_app. right. by left. }
      by apply (proj1 (remaining_zero edges order k) H0 e).
Qed.

Lemma kahn_inv_run nodes edges adj fuel : ∀ ind queue order res,
  wf_graph nodes edges →
  (∀ k, k ∈ ids nodes → adj !! k = Some (targetsOf edges k)) →
  kahn_inv nodes edges ind queue order →
  kahn fuel adj ind queue order = Ordered res →
  ∃ ind', kahn_inv nodes edges ind' [] res.
Proof.
  induction fuel as [|fuel IH]; intros ind queue order res Hwf Hadj Hinv Hrun.
  - destruct queue; simpl in Hrun; [|done]. simplify_eq. eauto.
  - destruct queue as [|k q]; simpl in Hrun.
    { simplify_eq. eauto. }
    assert (Hk : k ∈ ids nodes).
    { apply (inv_ids _ _ _ _ _ Hinv), elem_of_app. right. by left. }
    rewrite (Hadj k Hk) in Hrun.
    pose proof (kahn_inv_step _ _ _ _ _ _ Hwf Hinv) as Hstep.
    destruct (relax (targetsOf edges k) ind q) as [ind' q'].
    by eapply IH.
Qed.

(** The queue is first in, first out: what is in it leaves it in order. *)
Lemma kahn_fifo adj fuel : ∀ ind queue order res,
  kahn fuel adj ind queue order = Ordered res →
  ∃ rest, res = order ++ queue ++ rest.
Proof.
  induction fuel as [|fuel IH]; intros ind queue order res Hrun.
  - destruct queue; simpl in Hrun; [|done]. simplify_eq.
    exists []. by rewrite !app_nil_r.
  - destruct queue as [|k q]; simpl in Hrun.
    { simplify_eq. exists []. by rewrite !app_nil_r. }
    destruct (adj !! k) as [tgts|]; [|done].
    destruct (relax_spec tgts ind q) as (new & Hq & _).
    destruct (relax tgts ind q) as [ind' q']. simpl in Hq. subst q'.
    apply IH in Hrun as [rest ->].
    exists (new ++ rest). by rewrite <-!app_assoc.
Qed.

Lemma remaining_nil edges v : remaining edges [] v = indegreeOf edges v.
Proof.
  unfold remaining, indegreeOf. f_equal. apply list_filter_iff.
  intros e. split; [by intros []|]. intros. split; [done|].
  apply not_elem_of_nil.
Qed.

Lemma initQueue_spec nodes ind :
  initQueue nodes ind
  = filter (λ v, ind_get v ind = Some (Cnt 0)) (ids nodes).
Proof.
  unfold initQueue, ids.
  induction nodes as [|n ns IH]; [done|].
  rewrite fmap_cons, !filter_cons.
  destruct (decide (ind_get (id n) ind = Some (Cnt 0)));
    rewrite ?fmap_cons, IH; done.
Qed.

Lemma tables_wf nodes edges :
  wf_graph nodes edges →
  ∃ adj ind,
    addEdges edges (initTables nodes ∅ ∅).1 (initTables nodes ∅ ∅).2
    = Some (adj, ind) ∧
    (∀ k, k ∈ ids nodes → adj !! k = Some (targetsOf edges k)) ∧
    (∀ v, v ∈ ids nodes →
          ind_get v ind = Some (Cnt (Z.of_nat (indegreeOf edges v)))).
Proof.
  intros Hwf.
  destruct (addEdges edges _ _) as [[adj ind]|] eqn:Hrun.
  - exists adj, ind. split_and!; [done| |].
    + intros k Hk. rewrite (addEdges_adj _ _ _ _ _ k [] Hrun); [done|].
      by rewrite initTables_adj, decide_True.
    + intros v Hv.
      assert (Hp : v ≠ proto) by (intros ->; by apply (wf_plain _ _ Hwf)).
      rewrite ind_get_plain by done.
      rewrite (addEdges_ind _ _ _ _ _ v 0 Hrun); [done| |done].
      by rewrite initTables_ind, decide_True.
  - apply addEdges_None in Hrun as (e & He & Hnone).
    rewrite initTables_adj, decide_True in Hnone; [done|].
    by apply (wf_source _ _ Hwf).
Qed.

Lemma kahn_inv_init nodes edges ind :
  wf_graph nodes edges →
  (∀ v, v ∈ ids nodes →
        ind_get v ind = Some (Cnt (Z.of_nat (indegreeOf edges v)))) →
  kahn_inv nodes edges ind (initQueue nodes ind) [].
Proof.
  intros Hwf Hind.
  assert (Hq : ∀ v, v ∈ initQueue nodes ind ↔
                    v ∈ ids nodes ∧ indegreeOf edges v = 0).
  { intros v. rewrite initQueue_spec.
    rewrite list_elem_of_filter. split.
    - intros [Hz Hv]. split; [done|]. rewrite (Hind v Hv) in Hz.
      injection Hz. lia.
    - intros [Hv Hz]. split; [|done]. by rewrite (Hind v Hv), Hz. }
  split; simpl.
  - rewrite initQueue_spec.
    apply NoDup_filter, (wf_nodup _ _ Hwf).
  - intros v Hv. by apply Hq.
  - intros v Hv. by rewrite remaining_nil, Hind.
  - intros v Hv. rewrite remaining_nil, Hq. tauto.
  - intros e _ []%not_elem_of_nil.
Qed.

(** ** A graph in which every node of a set has a predecessor in the set
    has a cycle *)

Lemma walk_reach {A} (rel : A → A → Prop) l : ∀ y z,
  is_walk rel y l → z ∈ l → tc rel y z.
Proof.
  induction l as [|x l IH]; intros y z Hw Hz; [by apply not_elem_of_nil in Hz|].
  destruct Hw as [Hyx Hw].
  apply elem_of_cons in Hz as [->|Hz]; [by apply tc_once|].
  eapply tc_l; [done|]. by apply IH.
Qed.

Lemma long_walk {A} `{EqDecision A} (rel : A → A → Prop) (R : A → Prop) x :
  (∀ v, R v → ∃ u, R u ∧ rel u v) →
  R x →
  ∀ n, (∃ c, tc rel c c) ∨
       ∃ y l, R y ∧ Forall R l ∧ is_walk rel y l ∧ NoDup (y :: l) ∧ length l = n.
Proof.
  intros Hpred Hx n. induction n as [|n IH].
  { right. exists x, []. split_and!; try done. apply NoDup_singleton. }
  destruct IH as [Hc|(y & l & Hy & Hl & Hw & Hnd & Hlen)]; [by left|].
  destruct (Hpred y Hy) as (u & Hu & Huy).
  destruct (decide (u ∈ y :: l)) as [Hin|Hout].
  - left. exists u. apply elem_of_cons in Hin as [->|Hin]; [by apply tc_once|].
    eapply tc_l; [done|]. by eapply walk_reach.
  - right. exists u, (y :: l). split_and!; try done.
    + by constructor.
    + by constructor.
    + simpl. by rewrite Hlen.
Qed.

Lemma closed_set_cycle (rel : string → string → Prop) (R : string → Prop)
    (univ : list string) x :
  (∀ v, R v → v ∈ univ) →
  (∀ v, R v → ∃ u, R u ∧ rel u v) →
  R x → ∃ c, tc rel c c.
Proof.
  intros Huniv Hpred Hx.
  destruct (long_walk rel R x Hpred Hx (length univ))
    as [Hc|(y & l & Hy & Hl & Hw & Hnd & Hlen)]; [done|].
  exfalso.
  assert (Hsub : y :: l ⊆+ univ).
  { apply NoDup_submseteq; [done|]. intros v [->|Hv]%elem_of_cons; [eauto|].
    rewrite Forall_forall in Hl. eauto. }
  apply submseteq_length in Hsub. simpl in Hsub. lia.
Qed.

(** ** The schedule of a well-formed graph *)

Lemma filter_ext_elem {A} (P Q : A → Prop)
    `{∀ x, Decision (P x)} `{∀ x, Decision (Q x)} (l : list A) :
  (∀ x, x ∈ l → P x ↔ Q x) → filter P l = filter Q l.
Proof.
  induction l as [|x l IH]; intros Hext; [done|].
  rewrite !filter_cons.
  assert (Hx : P x ↔ Q x) by (apply Hext; by left).
  rewrite IH by (intros y Hy; apply Hext; by right).
  destruct (decide (P x)), (decide (Q x)); tauto.
Qed.

Lemma schedule_wf nodes edges :
  wf_graph nodes edges →
  ∃ order ind rest,
    scheduleOrder nodes edges = Scheduled order ∧
    kahn_inv nodes edges ind [] order ∧
    order = filter (λ v, indegreeOf edges v = 0) (ids nodes) ++ rest.
Proof.
  intros Hwf. rewrite scheduleOrder_unfold.
  destruct (tables_wf _ _ Hwf) as (adj & ind & Hrun & Hadj & Hind).
  rewrite Hrun.
  pose proof (schedule_terminates nodes edges) as Hterm.
  rewrite scheduleOrder_unfold, Hrun in Hterm.
  destruct (kahn _ adj ind _ []) as [order| |] eqn:Hk.
  - destruct (kahn_inv_run _ _ _ _ _ _ _ _ Hwf Hadj
                (kahn_inv_init _ _ _ Hwf Hind) Hk) as [ind' Hinv].
    apply kahn_fifo in Hk as [rest Hrest]. simpl in Hrest.
    exists order, ind', rest. split_and!; [done|done|].
    rewrite Hrest. f_equal. rewrite initQueue_spec.
    apply filter_ext_elem. intros v Hv. rewrite (Hind v Hv). split.
    + intros [= Hz]. lia.
    + by intros ->.
  - exfalso. destruct Hterm as (e & He & Hsrc).
    by apply Hsrc, (wf_source _ _ Hwf).
  - done.
Qed.

Lemma inv_path_before nodes edges ind order a b :
  kahn_inv nodes edges ind [] order →
  tc (edge_rel edges) a b → b ∈ order → precedes order a b.
Proof.
  intros Hinv Hpath. 
  assert (Hnd : NoDup order) by (by eapply inv_order_nodup).
  induction Hpath as [a b Hab|a y b Hay Hyb IH]; intros Hb.
  - by apply (inv_before _ _ _ _ _ Hinv (Edge a b)).
  - specialize (IH Hb). eapply precedes_trans; [done| |done].
    apply (inv_before _ _ _ _ _ Hinv (Edge a y)); [done|].
    by apply precedes_elem_of in IH as [? _].
Qed.

Lemma cycle_not_ordered nodes edges ind order v :
  kahn_inv nodes edges ind [] order →
  on_cycle edges v → v ∉ order.
Proof.
  intros Hinv Hcyc Hv.
  assert (Hnd : NoDup order) by (by eapply inv_order_nodup).
  eapply precedes_irrefl; [done|]. by eapply inv_path_before.
Qed.

Lemma acyclic_all_ordered nodes edges ind order :
  wf_graph nodes edges →
  acyclic edges →
  kahn_inv nodes edges ind [] order →
  ∀ v, v ∈ ids nodes → v ∈ order.
Proof.
  intros Hwf Hacyc Hinv v Hv.
  destruct (decide (v ∈ order)) as [|Hout]; [done|]. exfalso.
  destruct (closed_set_cycle (edge_rel edges)
              (λ u, u ∈ ids nodes ∧ u ∉ order) (ids nodes) v)
    as [c Hc]; [tauto| |done|by apply (Hacyc c)].
  intros u [Hu Hnot].
  assert (Hrem : remaining edges order u ≠ 0).
  { intros H0. apply Hnot.
    apply (inv_ready _ _ _ _ _ Hinv u Hu) in H0. by rewrite app_nil_r in H0. }
  apply remaining_pos in Hrem as (e & He & Ht & Hs).
  exists (source e). split_and!; [by apply (wf_source _ _ Hwf)|done|].
  unfold edge_rel. rewrite <-Ht. by destruct e.
Qed.

Lemma rank_path edges (rank : string → nat) a b :
  (∀ e, e ∈ edges → rank (source e) < rank (target e)) →
  tc (edge_rel edges) a b → rank a < rank b.
Proof.
  intros Hrank Hpath.
  induction Hpath as [a b Hab|a y b Hay Hyb IH].
  - apply (Hrank (Edge a b) Hab).
  - pose proof (Hrank (Edge a y) Hay). simpl in *. lia.
Qed.

Lemma acyclic_of_rank edges (rank : string → nat) :
  (∀ e, e ∈ edges → rank (source e) < rank (target e)) → acyclic edges.
Proof.
  intros Hrank v Hcyc. pose proof (rank_path _ _ _ _ Hrank Hcyc). lia.
Qed.

Lemma three_in_order (l : list string) a b c :
  l ≡ₚ [a; b; c] → precedes l a b → precedes l b c → NoDup l →
  l = [a; b; c].
Proof.
  intros Hperm (i & j & Hij & Hi & Hj) (j' & k & Hjk & Hj' & Hk) Hnd.
  assert (j = j') as <- by (by eapply NoDup_lookup).
  assert (Hlen : length l = 3) by (by rewrite Hperm).
  apply lookup_lt_Some in Hk as Hk3. rewrite Hlen in Hk3.
  assert (i = 0 ∧ j = 1 ∧ k = 2) as (-> & -> & ->) by lia.
  destruct l as [|x [|y [|z [|? ?]]]]; simplify_eq/=. done.
Qed.

Lemma schedule_acyclic nodes edges :
  wf_graph nodes edges → acyclic edges →
  ∃ order rest,
    scheduleOrder nodes edges = Scheduled order ∧
    order ≡ₚ ids nodes ∧ NoDup order ∧
    (∀ e, e ∈ edges → precedes order (source e) (target e)) ∧
    order = filter (λ v, indegreeOf edges v = 0) (ids nodes) ++ rest.
Proof.
  intros Hwf Hacyc.
  destruct (schedule_wf _ _ Hwf) as (order & ind & rest & Hs & Hinv & Hrest).
  assert (Hnd : NoDup order) by (by eapply inv_order_nodup).
  assert (Hall := acyclic_all_ordered _ _ _ _ Hwf Hacyc Hinv).
  exists order, rest. split_and!; [done| |done| |done].
  - apply NoDup_Permutation; [done|by apply (wf_nodup _ _ Hwf)|].
    intros v. split; [|by apply Hall].
    intros Hv. apply (inv_ids _ _ _ _ _ Hinv). by rewrite app_nil_r.
  - intros e He. apply (inv_before _ _ _ _ _ Hinv e He).
    by apply Hall, (wf_target _ _ Hwf).
Qed.

Lemma chain_wf nodes a b c :
  ids nodes ≡ₚ [a; b; c] → NoDup [a; b; c] → proto ∉ [a; b; c] →
  wf_graph nodes [Edge a b; Edge b c].
Proof.
  intros Hperm Hnd Hplain. split.
  - by rewrite Hperm.
  - by rewrite Hperm.
  - intros e He. rewrite Hperm.
    apply elem_of_cons in He as [->|He]; [by left|].
    apply list_elem_of_singleton in He as ->. right. by left.
  - intros e He. rewrite Hperm.
    apply elem_of_cons in He as [->|He]; [right; by left|].
    apply list_elem_of_singleton in He as ->. do 2 right. by left.
Qed.

Lemma chain_acyclic a b c : NoDup [a; b; c] → acyclic [Edge a b; Edge b c].
Proof.
  intros Hnd. apply NoDup_cons in Hnd as [Ha [Hb _]%NoDup_cons].
  apply not_elem_of_cons in Ha as [Hab Ha].
  apply not_elem_of_cons in Ha as [Hac _].
  apply not_elem_of_cons in Hb as [Hbc _].
  apply (acyclic_of_rank _
           (λ x, if decide (x = a) then 0 else if decide (x = b) then 1 else 2)).
  intros e He. apply elem_of_cons in He as [->|He].
  - simpl. rewrite decide_True by done.
    rewrite (decide_False (P := b = a)) by done.
    rewrite decide_True by done. lia.
  - apply list_elem_of_singleton in He as ->. simpl.
    rewrite (decide_False (P := b = a)) by done.
    rewrite (decide_True (P := b = b)) by done.
    rewrite (decide_False (P := c = a)) by done.
    rewrite (decide_False (P := c = b)) by done. lia.
Qed.

Lemma schedule_chain nodes a b c :
  ids nodes ≡ₚ [a; b; c] → NoDup [a; b; c] → proto ∉ [a; b; c] →
  scheduleOrder nodes [Edge a b; Edge b c] = Scheduled [a; b; c].
Proof.
  intros Hperm Hnd Hplain.
  destruct (schedule_acyclic _ _ (chain_wf _ _ _ _ Hperm Hnd Hplain)
              (chain_acyclic _ _ _ Hnd))
    as (order & rest & -> & Hp & Hndo & Hbefore & _).
  f_equal. apply three_in_order; [by rewrite Hp| | |done].
  - apply (Hbefore (Edge a b)). by left.
  - apply (Hbefore (Edge b c)). right. by left.
Qed.

(** ** Running the nodes *)

Section EngineProps.

Context {world : Type}.
Variable runScript : value → world → outcome unit * world.
Variable fetchText : value → value → world → outcome string * world.
Variable hostEval : value → value → value → world → completion * world.

Abbreviation execNode := (execNode world runScript fetchText hostEval).
Abbreviation execOrder := (execOrder world runScript fetchText hostEval).
Abbreviation executeFlow := (executeFlow world runScript fetchText hostEval).

Lemma setData_ids i k v nodes : ids (setData i k v nodes) = ids nodes.
Proof.
  unfold ids, setData. apply list_eq. intros j.
  rewrite !list_lookup_fmap. destruct (decide (i = j)) as [->|Hne].
  - rewrite list_lookup_alter_eq. by destruct (nodes !! j).
  - by rewrite list_lookup_alter_ne.
Qed.

Lemma setData_lookup_ne i j k v (nodes : list node) :
  i ≠ j → setData i k v nodes !! j = nodes !! j.
Proof. intros. by apply list_lookup_alter_ne. Qed.

(** Running a node changes no id and no other node. *)
Lemma execNode_frame i st :
  ids (rs_nodes (stepState (execNode i st))) = ids (rs_nodes st) ∧
  ∀ j, i ≠ j →
       rs_nodes (stepState (execNode i st)) !! j = rs_nodes st !! j.
Proof.
  unfold execNode.
  destruct (rs_nodes st !! i) as [n|]; [|done].
  repeat case_decide; try done.
  - destruct (runScript _ _) as [[[]|e] w]; done.
  - destruct (evalArithmetic _ _ _ _ _) as [[v|] w]; simpl; [|done].
    split; [apply setData_ids|]. intros. by apply setData_lookup_ne.
  - destruct (fetchText _ _ _) as [[body|e] w]; simpl;
      (split; [apply setData_ids|]; intros; by apply setData_lookup_ne).
Qed.

Lemma buildNodeMap_lookup nodes : ∀ i m k j,
  buildNodeMap nodes i m !! k = Some j →
  m !! k = Some j ∨ (i ≤ j ∧ ids nodes !! (j - i) = Some k).
Proof.
  induction nodes as [|n ns IH]; intros i m k j Hk; simpl in *; [by left|].
  apply IH in Hk as [Hk|[Hle Hk]].
  - destruct (decide (id n = k)) as [<-|Hne].
    + rewrite lookup_insert_eq in Hk. injection Hk as <-.
      right. split; [done|]. by rewrite Nat.sub_diag.
    + rewrite lookup_insert_ne in Hk by done. by left.
  - right. split; [lia|].
    replace (j - i) with (S (j - S i)) by lia. done.
Qed.

Lemma nodeMap_lookup nodes k j :
  nodeMap nodes !! k = Some j → ids nodes !! j = Some k.
Proof.
  intros [Hk|[_ Hk]]%buildNodeMap_lookup; [by rewrite lookup_empty in Hk|].
  by rewrite Nat.sub_0_r in Hk.
Qed.

(** A node whose id is not in [order] is left as it was. *)
Lemma execOrder_frame order nm : ∀ st st',
  (∀ k i, nm !! k = Some i → ids (rs_nodes st) !! i = Some k) →
  finalState (execOrder order nm st) = Some st' →
  ∀ j n, rs_nodes st !! j = Some n → id n ∉ order →
         rs_nodes st' !! j = Some n.
Proof.
  induction order as [|k rest IH]; intros st st' Hnm Hrun j n Hj Hout;
    simpl in Hrun.
  { by simplify_eq. }
  apply not_elem_of_cons in Hout as [Hne Hout].
  destruct (nm !! k) as [i|] eqn:Hk; [|by eapply IH].
  pose proof (execNode_frame i st) as [Hids Hother].
  assert (Hij : i ≠ j).
  { intros ->. apply Hnm in Hk. unfold ids in Hk.
    rewrite list_lookup_fmap, Hj in Hk. simpl in Hk. congruence. }
  destruct (execNode i st) as [st1|st1]; simpl in *.
  - eapply (IH st1); [|done| |done].
    + intros k' i' Hk'. rewrite Hids. by apply Hnm.
    + rewrite Hother; done.
  - simplify_eq. rewrite Hother; done.
Qed.

Lemma execOrder_final order nm : ∀ st,
  is_Some (finalState (execOrder order nm st)).
Proof.
  induction order as [|k rest IH]; intros st; simpl; [done|].
  destruct (nm !! k); [|done]. by destruct (execNode _ _).
Qed.

End EngineProps.

(** ** The claims about running a flow *)

Lemma tc_has_last {A} (R : A → A → Prop) a b : tc R a b → ∃ u, R u b.
Proof. induction 1; eauto. Qed.

Lemma on_cycle_is_node nodes edges v :
  wf_graph nodes edges → on_cycle edges v → v ∈ ids nodes.
Proof.
  intros Hwf [u Hu]%tc_has_last. apply (wf_target _ _ Hwf (Edge u v) Hu).
Qed.

Lemma field_setData_eq nodes i k v :
  i < length nodes → field (setData i k v nodes) i k = v.
Proof.
  intros [n Hn]%lookup_lt_is_Some_2. unfold field, setData, get.
  rewrite list_lookup_alter_eq, Hn. simpl. by rewrite lookup_insert_eq.
Qed.

Lemma field_setData_ne nodes i j k k' v :
  k ≠ k' → field (setData i k v nodes) j k' = field nodes j k'.
Proof.
  intros Hk. unfold field, setData, get.
  destruct (decide (i = j)) as [->|Hne].
  - rewrite list_lookup_alter_eq. destruct (nodes !! j) as [n|]; [|done].
    simpl. by rewrite lookup_insert_ne.
  - by rewrite list_lookup_alter_ne.
Qed.

Lemma div_by_zero_cases x :
  let r := Number.div (reread x) (S754_zero false) in
  r = Infinity ∨ r = NegInfinity ∨ r = NaN.
Proof. destruct x as [s|[|]| |[|] m e]; simpl; auto. Qed.

Section Claims.

Context {world : Type}.
Variable runScript : value → world → outcome unit * world.
Variable fetchText : value → value → world → outcome string * world.
Variable hostEval : value → value → value → world → completion * world.

Abbreviation execNode := (execNode world runScript fetchText hostEval).
Abbreviation execOrder := (execOrder world runScript fetchText hostEval).
Abbreviation executeFlow := (executeFlow world runScript fetchText hostEval).

(** C2, as the code has it.  For an arithmetic node with operator ['/'] and
    a numeric operandB equal to zero, execution stores the quotient of
    operandA by zero in [result]: [Infinity], [-Infinity] or [NaN].  It
    writes no other field: [lastError] is what it was. *)
Theorem division_by_zero_stores_the_quotient i st n x y :
  rs_nodes st !! i = Some n →
  type n = "arithmeticNode" →
  get (data n) "a" = VNum x →
  get (data n) "op" = VStr "/" →
  get (data n) "b" = VNum y →
  Number.is_zero y = true →
  ∃ r,
    execNode i st
    = inl (RunState (setData i "result" (VNum r) (rs_nodes st))
                    (rs_world st) (rs_console st)) ∧
    r = Number.div (reread x) (S754_zero false) ∧
    (r = Infinity ∨ r = NegInfinity ∨ r = NaN) ∧
    field (setData i "result" (VNum r) (rs_nodes st)) i "result" = VNum r ∧
    field (setData i "result" (VNum r) (rs_nodes st)) i "lastError"
    = field (rs_nodes st) i "lastError".
Proof.
  intros Hn Ht Ha Hop Hb Hy.
  exists (Number.div (reread x) (S754_zero false)).
  split_and!; [|done|apply div_by_zero_cases| |].
  - unfold execNode. rewrite Hn, Ht.
    rewrite decide_False by done. rewrite decide_True by done.
    rewrite Ha, Hop, Hb. destruct y; try done.
  - apply field_setData_eq. by eapply lookup_lt_Some.
  - by apply field_setData_ne.
Qed.

(** C3, as the code has it.  For an http node whose request fails, execution
    stores the error message in the node's [response] field, in place of
    the value it held; it writes no other field: [lastError] is what it
    was. *)
Theorem failed_request_overwrites_response i st n e w' :
  rs_nodes st !! i = Some n →
  type n = "httpNode" →
  fetchText (get (data n) "url") (get (data n) "method") (rs_world st)
  = (Failed e, w') →
  execNode i st
  = inl (RunState (setData i "response" (VStr e) (rs_nodes st)) w'
                  (rs_console st)) ∧
  field (setData i "response" (VStr e) (rs_nodes st)) i "response" = VStr e ∧
  field (setData i "response" (VStr e) (rs_nodes st)) i "lastError"
  = field (rs_nodes st) i "lastError".
Proof.
  intros Hn Ht Hf. split_and!.
  - unfold execNode. rewrite Hn, Ht.
    rewrite !decide_False by done. rewrite decide_True by done.
    by rewrite Hf.
  - apply field_setData_eq. by eapply lookup_lt_Some.
  - by apply field_setData_ne.
Qed.

(** C4, as the code has it.  For a code node whose script throws, execution
    catches the failure and writes the error to the console; the node list
    is left as it was, so no [lastError] is stored.  The flow goes on: the
    run of the order from this node is the run of the rest of the order
    from the state the catch leaves. *)
Theorem failing_script_is_logged k rest nm st i n e w' :
  nm !! k = Some i →
  rs_nodes st !! i = Some n →
  type n = "codeNode" →
  runScript (get (data n) "code") (rs_world st) = (Failed e, w') →
  execNode i st = inl (RunState (rs_nodes st) w' (rs_console st ++ [e])) ∧
  execOrder (k :: rest) nm st
  = execOrder rest nm (RunState (rs_nodes st) w' (rs_console st ++ [e])).
Proof.
  intros Hk Hn Ht Hf.
  assert (Hstep : execNode i st
                  = inl (RunState (rs_nodes st) w' (rs_console st ++ [e]))).
  { unfold execNode. rewrite Hn, Ht.
    rewrite decide_True by done. by rewrite Hf. }
  split; [done|]. simpl. by rewrite Hk, Hstep.
Qed.

(** C8, as the code has it.  For an arithmetic node with operandA 6,
    operandB 3 and operator ['*'], execution sets [result] to 18.  It
    writes no other field: [lastError] is what it was, so it is absent
    afterwards for a node that had none. *)
Theorem six_times_three i st n :
  rs_nodes st !! i = Some n →
  type n = "arithmeticNode" →
  get (data n) "a" = VNum (ofZ 6) →
  get (data n) "op" = VStr "*" →
  get (data n) "b" = VNum (ofZ 3) →
  execNode i st
  = inl (RunState (setData i "result" (VNum (ofZ 18)) (rs_nodes st))
                  (rs_world st) (rs_console st)) ∧
  field (setData i "result" (VNum (ofZ 18)) (rs_nodes st)) i "result"
  = VNum (ofZ 18) ∧
  field (setData i "result" (VNum (ofZ 18)) (rs_nodes st)) i "lastError"
  = field (rs_nodes st) i "lastError".
Proof.
  intros Hn Ht Ha Hop Hb. split_and!.
  - unfold execNode. rewrite Hn, Ht.
    rewrite decide_False by done. rewrite decide_True by done.
    by rewrite Ha, Hop, Hb.
  - apply field_setData_eq. by eapply lookup_lt_Some.
  - by apply field_setData_ne.
Qed.

End Claims.

(** ** The claims about loading, scheduling and adding *)

Lemma wf_graph_check nodes edges :
  NoDup (ids nodes) →
  proto ∉ ids nodes →
  Forall (λ e, source e ∈ ids nodes ∧ target e ∈ ids nodes) edges →
  wf_graph nodes edges.
Proof.
  intros Hnd Hp Hall. rewrite Forall_forall in Hall.
  split; [done|done| |]; intros e He; by apply Hall.
Qed.

(** ** Adding nodes *)

Lemma ids_add nodes ty pos d :
  ids (nodes ++ [Node (nextId nodes) ty pos d])
  = ids nodes ++ [pretty (length nodes + 1)].
Proof. unfold ids. by rewrite fmap_app. Qed.

(** An add numbers the new node by the length of the list: if the ids are
    the numbers from 1 on, they still are afterwards. *)
Lemma add_numbers_the_node a g :
  is_add a →
  ids g.1 = (λ i, pretty (i + 1)) <$> seq 0 (length g.1) →
  ids (act a g).1 = (λ i, pretty (i + 1)) <$> seq 0 (length (act a g).1).
Proof.
  intros Ha Hids.
  assert (Hnew : ids (act a g).1 = ids g.1 ++ [pretty (length g.1 + 1)] ∧
                 length (act a g).1 = S (length g.1)).
  { destruct a; try done; simpl;
      unfold addCodeNode, addArithmeticNode, addHttpNode;
      rewrite ids_add, length_app; simpl; split; (done || lia). }
  destruct Hnew as [Hnew Hlen].
  by rewrite Hnew, Hlen, Hids, seq_S, fmap_app.
Qed.

(** X18.  As long as nodes are only added to the initial node, no two nodes
    share an id. *)
Lemma adds_keep_ids_unique l :
  Forall is_add l → NoDup (ids (acts l (initialNodes, [])).1).
Proof.
  intros Hl.
  assert (Hids : ∀ g,
    ids g.1 = (λ i, pretty (i + 1)) <$> seq 0 (length g.1) →
    ids (acts l g).1
    = (λ i, pretty (i + 1)) <$> seq 0 (length (acts l g).1)).
  { induction Hl as [|a l Ha Hl IH]; intros g Hg; [done|].
    apply IH. by apply add_numbers_the_node. }
  rewrite Hids by done.
  apply NoDup_fmap_2; [|apply NoDup_seq].
  intros i j Hij. apply (inj pretty) in Hij. lia.
Qed.

(** C5, as the code has it.  A document without the [edges] key loads with
    an empty edge collection, and a document without the [nodes] key loads
    with an empty node collection: the missing field is defaulted, and no
    error is raised. *)
Theorem load_defaults_missing_keys fields :
  (fields !! "edges" = None →
   loadFlow (Some (Some (JObj fields)))
   = Loaded (orEmpty (fields !! "nodes")) (JArr [])) ∧
  (fields !! "nodes" = None →
   loadFlow (Some (Some (JObj fields)))
   = Loaded (JArr []) (orEmpty (fields !! "edges"))).
Proof. split; intros H; simpl; by rewrite H. Qed.

(** C6, as the code has it.  A load takes the edges of the document as they
    are: an edge whose source or target is the id of no node of the
    document is in the loaded graph, and the load raises no error.  A
    connect stores what [addEdge] returns for the connection and the current
    edges; the nodes are not consulted. *)
Theorem dangling_edges_are_accepted :
  (∀ fields l e,
     fields !! "edges" = Some (JArr l) →
     e ∈ jsonEdges (JArr l) →
     source e ∉ jsonIds (orEmpty (fields !! "nodes")) ∨
     target e ∉ jsonIds (orEmpty (fields !! "nodes")) →
     ∃ ns es,
       loadFlow (Some (Some (JObj fields))) = Loaded ns es ∧
       e ∈ jsonEdges es ∧
       (source e ∉ jsonIds ns ∨ target e ∉ jsonIds ns)) ∧
  (∀ addEdge params nodes nodes' edges,
     (onConnect addEdge params (nodes, edges)).2
     = (onConnect addEdge params (nodes', edges)).2 ∧
     (onConnect addEdge params (nodes, edges)).1 = nodes).
Proof.
  split; [|done].
  intros fields l e Hl He Hd.
  exists (orEmpty (fields !! "nodes")), (JArr l).
  split_and!; [|done|done]. simpl. by rewrite Hl.
Qed.

(** X19.  On an acyclic graph with unique ids, none of them ["__proto__"],
    whose edges all join two nodes of the graph, the scheduler yields an
    order that holds every node exactly once and in which the source of
    every edge comes before its target; the nodes without an incoming edge
    come first, in the order of their declaration.  For a chain A, B, C of
    three different ids, none of them ["__proto__"], the order is exactly
    A, B, C, however the three nodes are declared. *)
Theorem scheduler_order :
  (∀ nodes edges,
     wf_graph nodes edges → acyclic edges →
     ∃ order rest,
       scheduleOrder nodes edges = Scheduled order ∧
       order ≡ₚ ids nodes ∧ NoDup order ∧
       (∀ e, e ∈ edges → precedes order (source e) (target e)) ∧
       order = filter (λ v, indegreeOf edges v = 0) (ids nodes) ++ rest) ∧
  (∀ nodes a b c,
     ids nodes ≡ₚ [a; b; c] → NoDup [a; b; c] → proto ∉ [a; b; c] →
     scheduleOrder nodes [Edge a b; Edge b c] = Scheduled [a; b; c]).
Proof. split; [apply schedule_acyclic|apply schedule_chain]. Qed.

(** ** The id [__proto__] *)

Lemma relax_plain tgts : ∀ ind queue,
  proto ∉ queue → proto ∉ (relax tgts ind queue).2.
Proof.
  induction tgts as [|tgt rest IH]; intros ind queue Hq; simpl; [done|].
  apply IH. case_decide as Hz; [|done].
  apply not_elem_of_app. split; [done|].
  apply not_elem_of_cons. split; [|apply not_elem_of_nil].
  intros <-. by rewrite ind_get_proto in Hz.
Qed.

Lemma kahn_plain adj fuel : ∀ ind queue order res,
  proto ∉ queue → proto ∉ order →
  kahn fuel adj ind queue order = Ordered res → proto ∉ res.
Proof.
  induction fuel as [|fuel IH]; intros ind queue order res Hq Ho Hrun;
    destruct queue as [|k q]; simpl in Hrun; try done;
    try (by simplify_eq).
  apply not_elem_of_cons in Hq as [Hk Hq].
  destruct (adj !! k) as [tgts|]; [|done].
  pose proof (relax_plain tgts ind q Hq) as Hq'.
  destruct (relax tgts ind q) as [ind' q']. simpl in Hq'.
  eapply IH; [done| |done].
  apply not_elem_of_app. split; [done|].
  apply not_elem_of_cons. split; [done|apply not_elem_of_nil].
Qed.

(** No count is ever stored for the key ["__proto__"], so the id never
    enters the queue. *)
Lemma proto_is_never_ordered nodes edges order :
  scheduleOrder nodes edges = Scheduled order → proto ∉ order.
Proof.
  rewrite scheduleOrder_unfold. intros Hs.
  destruct (addEdges edges _ _) as [[adj ind]|]; [|done].
  destruct (kahn _ adj ind _ []) as [res| |] eqn:Hkahn; try done.
  injection Hs as ->.
  eapply kahn_plain; [| |done].
  - rewrite initQueue_spec. intros [Hz _]%list_elem_of_filter.
    by apply ind_get_Some_plain in Hz.
  - apply not_elem_of_nil.
Qed.

(** C7, where the code departs from it.  The chain A, [__proto__], C has
    three different ids, its two edges join nodes of the graph and it has
    no cycle, yet the scheduler yields the order A alone: the node
    [__proto__] and the node C behind it are never ordered.  On every
    graph, an id ["__proto__"] is in no order that the scheduler yields. *)
Theorem proto_node_is_never_scheduled :
  (NoDup (ids Inputs.protoChainNodes) ∧
   (∀ e, e ∈ Inputs.protoChainEdges →
         source e ∈ ids Inputs.protoChainNodes ∧
         target e ∈ ids Inputs.protoChainNodes) ∧
   acyclic Inputs.protoChainEdges ∧
   scheduleOrder Inputs.protoChainNodes Inputs.protoChainEdges
   = Scheduled ["A"]) ∧
  (∀ nodes edges,
     match scheduleOrder nodes edges with
     | Scheduled order => proto ∉ order
     | _ => True
     end).
Proof.
  split.
  - split_and!.
    + compute_done.
    + intros e He. repeat (apply elem_of_cons in He as [->|He]);
        [split; compute_done|split; compute_done|].
      by apply not_elem_of_nil in He.
    + apply chain_acyclic. compute_done.
    + vm_compute. reflexivity.
  - intros nodes edges.
    destruct (scheduleOrder nodes edges) as [order| |] eqn:Hs; [|done|done].
    by eapply proto_is_never_ordered.
Qed.

(** C9.  The ids that the add operations give are not unique once a node
    has been deleted: from the initial node, adding a node, deleting node 1
    and adding a node again gives two nodes with the id 2. *)
Theorem add_after_delete_repeats_an_id :
  ids (acts [AddCode; Delete "1"; AddCode] (initialNodes, [])).1 = ["2"; "2"] ∧
  ¬ NoDup (ids (acts [AddCode; Delete "1"; AddCode] (initialNodes, [])).1).
Proof.
  assert (H : ids (acts [AddCode; Delete "1"; AddCode] (initialNodes, [])).1
              = ["2"; "2"]) by (vm_compute; reflexivity).
  split; [done|]. rewrite H. intros Hnd.
  apply NoDup_cons in Hnd as [Hnot _]. apply Hnot. by left.
Qed.

(** C10.  Kahn's loop ends on every graph, within one iteration for each
    node of the node list: it never runs out of the fuel [length nodes], and
    the order it yields is no longer than the node list.  The set-up of the
    tables throws exactly when an edge leaves an id that is no node.  On a
    well-formed graph no id is ordered twice, so each node is enqueued at
    most once. *)
Theorem kahn_loop_terminates nodes edges :
  match scheduleOrder nodes edges with
  | Scheduled order =>
      length order ≤ length nodes ∧ (wf_graph nodes edges → NoDup order)
  | ScheduleThrew => ∃ e, e ∈ edges ∧ source e ∉ ids nodes
  | ScheduleDiverged => False
  end.
Proof.
  pose proof (schedule_terminates nodes edges) as Hterm.
  destruct (scheduleOrder nodes edges) as [order| |] eqn:Hs; [|done|done].
  split; [done|]. intros Hwf.
  destruct (schedule_wf _ _ Hwf) as (order' & ind & rest & Hs' & Hinv & _).
  rewrite Hs in Hs'. injection Hs' as <-. by eapply inv_order_nodup.
Qed.

(** ** The claims on the sample inputs *)

Lemma cyclic_wf : wf_graph Sample.cyclicNodes Sample.cyclicEdges.
Proof. apply wf_graph_check; compute_done. Qed.

Lemma cyclic_on_cycle : on_cycle Sample.cyclicEdges "2".
Proof.
  apply (tc_l _ "2" "3" "2"); [|apply tc_once]; unfold edge_rel; compute_done.
Qed.

(** C1 fails as stated: beside a cycle of the nodes 2 and 3, the flow ends
    without an error and has run node 1, whose [result] went from [null]
    to 18. *)
Lemma cyclic_flow_still_executes :
  on_cycle Sample.cyclicEdges "2" ∧
  field Sample.cyclicNodes 0 "result" = VNull ∧
  ∃ st, Sample.executeFlow Sample.cyclicNodes Sample.cyclicEdges tt
        = Completed st ∧
        field (rs_nodes st) 0 "result" = VNum (ofZ 18).
Proof.
  split; [apply cyclic_on_cycle|]. split; [reflexivity|].
  eexists. split; [vm_compute; reflexivity|vm_compute; reflexivity].
Qed.

Lemma division_by_zero_witness :
  ∃ r,
    Sample.execNode 0 (RunState [Sample.quotientNode] tt [])
    = inl (RunState (setData 0 "result" (VNum r) [Sample.quotientNode]) tt []) ∧
    r = Number.div (reread (ofZ 4)) (S754_zero false) ∧
    (r = Infinity ∨ r = NegInfinity ∨ r = NaN) ∧
    field (setData 0 "result" (VNum r) [Sample.quotientNode]) 0 "result"
    = VNum r ∧
    field (setData 0 "result" (VNum r) [Sample.quotientNode]) 0 "lastError"
    = field [Sample.quotientNode] 0 "lastError".
Proof.
  apply (division_by_zero_stores_the_quotient Sample.runScript
           Sample.fetchText Sample.hostEval 0
           (RunState [Sample.quotientNode] tt []) Sample.quotientNode
           (ofZ 4) (ofZ 0)); reflexivity.
Defined.

(** C2 fails as stated: for [{a: 4, b: 0, op: '/'}] execution stores
    [Infinity] in [result], which was [null], and stores no [lastError]. *)
Lemma division_by_zero_stores_infinity :
  field [Sample.quotientNode] 0 "result" = VNull ∧
  ∃ st, Sample.execNode 0 (RunState [Sample.quotientNode] tt []) = inl st ∧
        field (rs_nodes st) 0 "result" = VNum Infinity ∧
        field (rs_nodes st) 0 "lastError" = VUndefined.
Proof.
  split; [reflexivity|].
  eexists. split; [vm_compute; reflexivity|]. split; vm_compute; reflexivity.
Qed.

Lemma failed_request_witness :
  Sample.execNode 0 (RunState [Sample.requestNode] tt [])
  = inl (RunState (setData 0 "response" (VStr "Failed to fetch")
                           [Sample.requestNode]) tt []) ∧
  field (setData 0 "response" (VStr "Failed to fetch") [Sample.requestNode])
        0 "response" = VStr "Failed to fetch" ∧
  field (setData 0 "response" (VStr "Failed to fetch") [Sample.requestNode])
        0 "lastError" = field [Sample.requestNode] 0 "lastError".
Proof.
  apply (failed_request_overwrites_response Sample.runScript Sample.fetchText
           Sample.hostEval 0 (RunState [Sample.requestNode] tt [])
           Sample.requestNode "Failed to fetch" tt); reflexivity.
Defined.

(** C3 fails as stated: after a failed request the [response] of the node,
    which held the previous body, holds the error message, and the node has
    no [lastError]. *)
Lemma failed_request_replaces_response :
  field [Sample.requestNode] 0 "response" = VStr "previous body" ∧
  ∃ st, Sample.execNode 0 (RunState [Sample.requestNode] tt []) = inl st ∧
        field (rs_nodes st) 0 "response" = VStr "Failed to fetch" ∧
        field (rs_nodes st) 0 "lastError" = VUndefined.
Proof.
  split; [reflexivity|].
  eexists. split; [vm_compute; reflexivity|]. split; vm_compute; reflexivity.
Qed.

Lemma failing_script_witness :
  Sample.execNode 0 (RunState Sample.throwingNodes tt [])
  = inl (RunState Sample.throwingNodes tt ["boom"]) ∧
  execOrder unit Sample.runScript Sample.fetchText Sample.hostEval
    ["1"; "2"] (nodeMap Sample.throwingNodes)
    (RunState Sample.throwingNodes tt [])
  = execOrder unit Sample.runScript Sample.fetchText Sample.hostEval
      ["2"] (nodeMap Sample.throwingNodes)
      (RunState Sample.throwingNodes tt ["boom"]).
Proof.
  apply (failing_script_is_logged Sample.runScript Sample.fetchText
           Sample.hostEval "1" ["2"] (nodeMap Sample.throwingNodes)
           (RunState Sample.throwingNodes tt []) 0
           (Sample.code "1" "throw new Error('boom')") "boom" tt);
    reflexivity.
Defined.

(** C4 fails as stated: the flow of a throwing script followed by an
    arithmetic node does run the arithmetic node, but the message of the
    script is on the console and the code node has no [lastError]. *)
Lemma failing_script_stores_no_error :
  ∃ st, Sample.executeFlow Sample.throwingNodes Sample.throwingEdges tt
        = Completed st ∧
        rs_console st = ["boom"] ∧
        field (rs_nodes st) 0 "lastError" = VUndefined ∧
        field (rs_nodes st) 1 "result" = VNum (ofZ 18).
Proof.
  eexists. split; [vm_compute; reflexivity|].
  split_and!; vm_compute; reflexivity.
Qed.

Lemma load_defaults_witness :
  loadFlow (Some (Some Sample.noEdgesDocument))
  = Loaded (orEmpty (Some (JArr []))) (JArr []) ∧
  loadFlow (Some (Some (JObj {["edges" := JArr []]})))
  = Loaded (JArr []) (orEmpty (Some (JArr []))).
Proof.
  split.
  - exact (proj1 (load_defaults_missing_keys {["nodes" := JArr []]}) eq_refl).
  - exact (proj2 (load_defaults_missing_keys {["edges" := JArr []]}) eq_refl).
Defined.

(** C5 fails as stated: the document [{ "nodes": [] }], which has no
    [edges] key, loads, with no edges. *)
Lemma load_without_edges_succeeds :
  property Sample.noEdgesDocument "edges" = Some None ∧
  loadFlow (Some (Some Sample.noEdgesDocument)) = Loaded (JArr []) (JArr []).
Proof. split; reflexivity. Qed.

Lemma dangling_edges_witness :
  (∃ ns es,
     loadFlow (Some (Some Sample.danglingDocument)) = Loaded ns es ∧
     Edge "1" "ghost" ∈ jsonEdges es ∧
     (source (Edge "1" "ghost") ∉ jsonIds ns ∨
      target (Edge "1" "ghost") ∉ jsonIds ns)) ∧
  (onConnect (λ e es, es ++ [e]) (Edge "1" "ghost") (initialNodes, [])).1
  = initialNodes.
Proof.
  destruct dangling_edges_are_accepted as [Hload Hconnect]. split.
  - apply (Hload
             (<["nodes" := JArr [JObj {["id" := JStr "1"]}]]>
              {["edges" := JArr [JObj (<["source" := JStr "1"]>
                                       {["target" := JStr "ghost"]})]]})
             [JObj (<["source" := JStr "1"]> {["target" := JStr "ghost"]})]
             (Edge "1" "ghost")).
    + reflexivity.
    + vm_compute. by left.
    + right. vm_compute. by intros [= ]%list_elem_of_singleton.
  - apply (Hconnect (λ e es, es ++ [e]) (Edge "1" "ghost") initialNodes
             initialNodes []).
Defined.

(** C6 fails as stated: the document whose only edge goes from node 1 to
    the id ["ghost"], which no node has, loads without an error, and the
    edge is in the loaded graph. *)
Lemma dangling_edge_is_loaded :
  ∃ ns es,
    loadFlow (Some (Some Sample.danglingDocument)) = Loaded ns es ∧
    jsonIds ns = ["1"] ∧
    jsonEdges es = [Edge "1" "ghost"].
Proof. eexists _, _. split; [reflexivity|]. split; vm_compute; reflexivity. Qed.

Lemma scheduler_order_witness :
  (∃ order rest,
     scheduleOrder Sample.chainNodes Sample.chainEdges = Scheduled order ∧
     order ≡ₚ ids Sample.chainNodes ∧ NoDup order ∧
     (∀ e, e ∈ Sample.chainEdges → precedes order (source e) (target e)) ∧
     order = filter (λ v, indegreeOf Sample.chainEdges v = 0)
                    (ids Sample.chainNodes) ++ rest) ∧
  scheduleOrder Sample.chainNodes Sample.chainEdges
  = Scheduled ["A"; "B"; "C"].
Proof.
  destruct scheduler_order as [Hgen Hchain].
  assert (Hnd : NoDup ["A"; "B"; "C"]) by compute_done.
  split.
  - apply Hgen.
    + apply wf_graph_check; compute_done.
    + by apply chain_acyclic.
  - apply (Hchain Sample.chainNodes "A" "B" "C"); [|done|compute_done].
    apply (reverse_Permutation ["A"; "B"; "C"]).
Defined.

(** C8 fails as stated: a node [{a: 6, b: 3, op: '*'}] whose data hold a
    [lastError] gets the [result] 18 and keeps that [lastError]; it is not
    set to [null]. *)
Lemma six_times_three_keeps_lastError :
  field [Sample.staleProductNode] 0 "a" = VNum (ofZ 6) ∧
  field [Sample.staleProductNode] 0 "b" = VNum (ofZ 3) ∧
  field [Sample.staleProductNode] 0 "op" = VStr "*" ∧
  ∃ st, Sample.execNode 0 (RunState [Sample.staleProductNode] tt []) = inl st ∧
        field (rs_nodes st) 0 "result" = VNum (ofZ 18) ∧
        field (rs_nodes st) 0 "lastError" = VStr "division by zero" ∧
        field (rs_nodes st) 0 "lastError" ≠ VNull.
Proof.
  split_and!; [reflexivity..|].
  eexists. split; [vm_compute; reflexivity|].
  split_and!; [vm_compute; reflexivity..|]. vm_compute. done.
Qed.

Lemma six_times_three_witness :
  Sample.execNode 0 (RunState [Sample.productNode] tt [])
  = inl (RunState (setData 0 "result" (VNum (ofZ 18)) [Sample.productNode])
                  tt []) ∧
  field (setData 0 "result" (VNum (ofZ 18)) [Sample.productNode]) 0 "result"
  = VNum (ofZ 18) ∧
  field (setData 0 "result" (VNum (ofZ 18)) [Sample.productNode]) 0 "lastError"
  = field [Sample.productNode] 0 "lastError".
Proof.
  apply (six_times_three Sample.runScript Sample.fetchText Sample.hostEval 0
           (RunState [Sample.productNode] tt []) Sample.productNode);
    reflexivity.
Defined.

Lemma kahn_loop_terminates_witness :
  scheduleOrder Sample.chainNodes Sample.chainEdges
  = Scheduled ["A"; "B"; "C"] ∧
  length ["A"; "B"; "C"] ≤ length Sample.chainNodes ∧
  NoDup ["A"; "B"; "C"].
Proof.
  assert (Hs : scheduleOrder Sample.chainNodes Sample.chainEdges
               = Scheduled ["A"; "B"; "C"]) by reflexivity.
  pose proof (kahn_loop_terminates Sample.chainNodes Sample.chainEdges) as H.
  rewrite Hs in H. destruct H as [Hlen Hnd].
  split_and!; [done|done|]. apply Hnd, wf_graph_check; compute_done.
Defined.

(** * Further properties of the code *)

(** ** When the set-up of the tables throws *)

Lemma addEdges_missing es : ∀ adj ind e,
  e ∈ es → adj !! source e = None → addEdges es adj ind = None.
Proof.
  induction es as [|e' es IH]; intros adj ind e He Hnone; simpl.
  { by apply not_elem_of_nil in He. }
  destruct (adj !! source e') as [tgts|] eqn:Hsrc; [|done].
  apply elem_of_cons in He as [->|He]; [congruence|].
  apply (IH _ _ e He).
  rewrite lookup_insert_ne; [done|]. congruence.
Qed.

Lemma schedule_throws nodes edges e :
  e ∈ edges → source e ∉ ids nodes → scheduleOrder nodes edges = ScheduleThrew.
Proof.
  intros He Hsrc. rewrite scheduleOrder_unfold.
  rewrite (addEdges_missing _ _ _ e He); [done|].
  by rewrite initTables_adj, decide_False.
Qed.

(** ** The nodes that are ordered *)

Lemma long_walk_within {A} `{EqDecision A} (rel : A → A → Prop)
    (R : A → Prop) x :
  (∀ v, R v → ∃ u, R u ∧ rel u v) →
  R x →
  ∀ n, (∃ c, R c ∧ tc rel c c) ∨
       ∃ y l, R y ∧ Forall R l ∧ is_walk rel y l ∧ NoDup (y :: l) ∧ length l = n.
Proof.
  intros Hpred Hx n. induction n as [|n IH].
  { right. exists x, []. split_and!; try done. apply NoDup_singleton. }
  destruct IH as [Hc|(y & l & Hy & Hl & Hw & Hnd & Hlen)]; [by left|].
  destruct (Hpred y Hy) as (u & Hu & Huy).
  destruct (decide (u ∈ y :: l)) as [Hin|Hout].
  - left. exists u. split; [done|].
    apply elem_of_cons in Hin as [->|Hin]; [by apply tc_once|].
    eapply tc_l; [done|]. by eapply walk_reach.
  - right. exists u, (y :: l). split_and!; try done.
    + by constructor.
    + by constructor.
    + simpl. by rewrite Hlen.
Qed.

Lemma closed_set_cycle_within (rel : string → string → Prop)
    (R : string → Prop) (univ : list string) x :
  (∀ v, R v → v ∈ univ) →
  (∀ v, R v → ∃ u, R u ∧ rel u v) →
  R x → ∃ c, R c ∧ tc rel c c.
Proof.
  intros Huniv Hpred Hx.
  destruct (long_walk_within rel R x Hpred Hx (length univ))
    as [Hc|(y & l & Hy & Hl & Hw & Hnd & Hlen)]; [done|].
  exfalso.
  assert (Hsub : y :: l ⊆+ univ).
  { apply NoDup_submseteq; [done|]. intros v [->|Hv]%elem_of_cons; [eauto|].
    rewrite Forall_forall in Hl. eauto. }
  apply submseteq_length in Hsub. simpl in Hsub. lia.
Qed.

Lemma downstream_not_ordered nodes edges ind order v :
  kahn_inv nodes edges ind [] order →
  downstream_of_cycle edges v → v ∉ order.
Proof.
  intros Hinv (c & Hc & Hcv) Hv.
  apply rtc_tc in Hcv as [->|Hcv].
  - by eapply cycle_not_ordered.
  - pose proof (inv_path_before _ _ _ _ _ _ Hinv Hcv Hv) as Hp.
    apply precedes_elem_of in Hp as [Hin _]. by eapply cycle_not_ordered.
Qed.

Lemma unordered_is_downstream nodes edges ind order v :
  wf_graph nodes edges →
  kahn_inv nodes edges ind [] order →
  v ∈ ids nodes → v ∉ order → downstream_of_cycle edges v.
Proof.
  intros Hwf Hinv Hv Hout.
  destruct (closed_set_cycle_within (edge_rel edges)
              (λ u, u ∈ ids nodes ∧ (u ∉ order) ∧ rtc (edge_rel edges) u v)
              (ids nodes) v) as (c & (_ & _ & Hcv) & Hc); [tauto| |done|].
  - intros u (Hu & Hnot & Huv).
    assert (Hrem : remaining edges order u ≠ 0).
    { intros H0. apply Hnot.
      apply (inv_ready _ _ _ _ _ Hinv u Hu) in H0.
      by rewrite app_nil_r in H0. }
    apply remaining_pos in Hrem as (e & He & Ht & Hs).
    assert (Hrel : edge_rel edges (source e) u).
    { unfold edge_rel. rewrite <-Ht. by destruct e. }
    exists (source e). split_and!; [by apply (wf_source _ _ Hwf)|done| |done].
    by eapply rtc_l.
  - by exists c.
Qed.

(** X3.  On a graph with unique ids, none of them ["__proto__"], whose
    edges all join two nodes of the graph, cyclic or not, the order that
    Kahn's loop yields holds exactly the nodes that are neither on a cycle
    nor reachable from one. *)
Theorem ordered_iff_not_downstream nodes edges :
  wf_graph nodes edges →
  ∃ order,
    scheduleOrder nodes edges = Scheduled order ∧
    ∀ v, v ∈ order ↔ v ∈ ids nodes ∧ ¬ downstream_of_cycle edges v.
Proof.
  intros Hwf.
  destruct (schedule_wf _ _ Hwf) as (order & ind & rest & Hs & Hinv & _).
  exists order. split; [done|]. intros v. split.
  - intros Hv. split.
    + apply (inv_ids _ _ _ _ _ Hinv). by rewrite app_nil_r.
    + intros Hd. by apply (downstream_not_ordered _ _ _ _ _ Hinv Hd).
  - intros [Hv Hd]. destruct (decide (v ∈ order)) as [|Hout]; [done|].
    exfalso. by apply Hd, (unordered_is_downstream _ _ _ _ _ Hwf Hinv).
Qed.


(** ** The order depends on the ids only *)

Lemma initTables_ids nodes : ∀ nodes' adj ind,
  ids nodes = ids nodes' →
  initTables nodes adj ind = initTables nodes' adj ind.
Proof.
  induction nodes as [|n ns IH]; intros [|n' ns'] adj ind Hids;
    try done; simpl in *.
  injection Hids as Hid Hids. rewrite Hid. by apply IH.
Qed.

Lemma scheduleOrder_ids nodes nodes' edges :
  ids nodes = ids nodes' →
  scheduleOrder nodes edges = scheduleOrder nodes' edges.
Proof.
  intros Hids. unfold scheduleOrder.
  rewrite (initTables_ids nodes nodes' ∅ ∅ Hids).
  destruct (initTables nodes' ∅ ∅) as [adj0 ind0].
  destruct (addEdges edges adj0 ind0) as [[adj ind]|]; [|done].
  rewrite !initQueue_spec, Hids.
  assert (length nodes = length nodes') as ->; [|done].
  unfold ids in Hids.
  by rewrite <-(length_fmap id nodes), <-(length_fmap id nodes'), Hids.
Qed.

Section RunProps.

Context {world : Type}.
Variable runScript : value → world → outcome unit * world.
Variable fetchText : value → value → world → outcome string * world.
Variable hostEval : value → value → value → world → completion * world.

Abbreviation execNode := (execNode world runScript fetchText hostEval).
Abbreviation execOrder := (execOrder world runScript fetchText hostEval).
Abbreviation executeFlow := (executeFlow world runScript fetchText hostEval).

(** X1.  The set-up of the tables throws exactly when an edge leaves an id
    that no node has; [executeFlow] then ends with that exception, before
    any node is run. *)
Theorem dangling_source_aborts nodes edges w :
  (scheduleOrder nodes edges = ScheduleThrew ↔
   ∃ e, e ∈ edges ∧ source e ∉ ids nodes) ∧
  ((∃ e, e ∈ edges ∧ source e ∉ ids nodes) →
   executeFlow nodes edges w = Aborted (RunState nodes w [])).
Proof.
  assert (Hthrow : (∃ e, e ∈ edges ∧ source e ∉ ids nodes) →
                   scheduleOrder nodes edges = ScheduleThrew).
  { intros (e & He & Hsrc). by eapply schedule_throws. }
  split_and!.
  - split; [|done]. intros Hs.
    pose proof (schedule_terminates nodes edges) as Ht. by rewrite Hs in Ht.
  - intros Hd. unfold executeFlow. by rewrite (Hthrow Hd).
Qed.

Lemma execOrder_ids order nm : ∀ st st',
  finalState (execOrder order nm st) = Some st' →
  ids (rs_nodes st') = ids (rs_nodes st).
Proof.
  induction order as [|k rest IH]; intros st st' Hrun; simpl in Hrun.
  { by simplify_eq. }
  destruct (nm !! k) as [i|]; [|by apply IH].
  pose proof (execNode_frame runScript fetchText hostEval i st) as [Hids _].
  destruct (execNode i st) as [st1|st1]; simpl in *.
  - rewrite <-Hids. by apply IH.
  - by simplify_eq.
Qed.

(** X8.  A run changes no id, and the order depends on the ids and the
    edges only: running the flow again on the nodes a run leaves schedules
    them in the same order. *)
Theorem rerun_has_same_order nodes edges w st :
  finalState (executeFlow nodes edges w) = Some st →
  ids (rs_nodes st) = ids nodes ∧
  scheduleOrder (rs_nodes st) edges = scheduleOrder nodes edges.
Proof.
  intros Hrun.
  assert (Hids : ids (rs_nodes st) = ids nodes).
  { unfold executeFlow in Hrun.
    destruct (scheduleOrder nodes edges) as [order| |]; simpl in Hrun.
    - by apply execOrder_ids in Hrun.
    - by simplify_eq.
    - done. }
  split; [done|]. by apply scheduleOrder_ids.
Qed.

(** *** What a run changes *)

Lemma run_changes_refl n : run_changes n n.
Proof. by split_and!. Qed.

Lemma run_changes_trans n1 n2 n3 :
  run_changes n1 n2 → run_changes n2 n3 → run_changes n1 n3.
Proof.
  intros (Hi1 & Ht1 & Hp1 & Hd1) (Hi2 & Ht2 & Hp2 & Hd2).
  split_and!; try congruence.
  intros k Hk. destruct (decide (data n2 !! k = data n1 !! k)) as [Heq|Hne].
  - rewrite <-Ht1. apply Hd2. congruence.
  - by apply Hd1.
Qed.

Lemma setData_changes i k v nodes :
  (∀ n, nodes !! i = Some n →
        (type n = "arithmeticNode" ∧ k = "result") ∨
        (type n = "httpNode" ∧ k = "response")) →
  Forall2 run_changes nodes (setData i k v nodes).
Proof.
  intros Hk. apply Forall2_alter_r.
  - apply Forall_Forall2_diag, Forall_forall. intros n _. apply run_changes_refl.
  - intros n n' Hn Hn' _. assert (n' = n) as -> by congruence.
    split_and!; [done..|].
    intros k' Hne. destruct (decide (k = k')) as [<-|Hkk].
    + by apply Hk.
    + simpl in Hne. by rewrite lookup_insert_ne in Hne.
Qed.

Lemma Forall2_run_changes_refl nodes : Forall2 run_changes nodes nodes.
Proof.
  apply Forall_Forall2_diag, Forall_forall. intros n _. apply run_changes_refl.
Qed.

Lemma execNode_changes i st :
  Forall2 run_changes (rs_nodes st) (rs_nodes (stepState (execNode i st))).
Proof.
  unfold execNode.
  destruct (rs_nodes st !! i) as [n|] eqn:Hn;
    [|apply Forall2_run_changes_refl].
  destruct (decide (type n = "codeNode")) as [Hc|Hc].
  { destruct (runScript _ _) as [[[]|e] w]; apply Forall2_run_changes_refl. }
  destruct (decide (type n = "arithmeticNode")) as [Ha|Ha].
  { destruct (evalArithmetic _ _ _ _ _) as [[v|] w]; simpl;
      [|apply Forall2_run_changes_refl].
    apply setData_changes. intros n' Hn'. left. by simplify_eq. }
  destruct (decide (type n = "httpNode")) as [Hh|Hh];
    [|apply Forall2_run_changes_refl].
  destruct (fetchText _ _ _) as [[body|e] w]; simpl;
    apply setData_changes; intros n' Hn'; right; by simplify_eq.
Qed.

Lemma Forall2_run_changes_trans l1 l2 l3 :
  Forall2 run_changes l1 l2 → Forall2 run_changes l2 l3 →
  Forall2 run_changes l1 l3.
Proof.
  intros H12. revert l3. induction H12 as [|n1 n2 l1 l2 Hn H12 IH];
    intros l3 H23; inversion H23; subst; constructor.
  - by eapply run_changes_trans.
  - by apply IH.
Qed.

Lemma execOrder_changes order nm : ∀ st st',
  finalState (execOrder order nm st) = Some st' →
  Forall2 run_changes (rs_nodes st) (rs_nodes st').
Proof.
  induction order as [|k rest IH]; intros st st' Hrun; simpl in Hrun.
  { simplify_eq. apply Forall2_run_changes_refl. }
  destruct (nm !! k) as [i|]; [|by apply IH].
  pose proof (execNode_changes i st) as Hstep.
  destruct (execNode i st) as [st1|st1]; simpl in *.
  - eapply Forall2_run_changes_trans; [done|]. by apply IH.
  - by simplify_eq.
Qed.

(** X7.  Whatever the graph and however the run ends, it leaves as many
    nodes as it found, each with its id, type and position; it changes
    nothing of a node's data but the [result] of an arithmetic node and the
    [response] of an http node.  A code node and a node of any other type
    are left exactly as they were. *)
Theorem run_changes_results_only nodes edges w st :
  finalState (executeFlow nodes edges w) = Some st →
  Forall2 run_changes nodes (rs_nodes st) ∧
  ∀ j n, nodes !! j = Some n →
         type n ≠ "arithmeticNode" → type n ≠ "httpNode" →
         rs_nodes st !! j = Some n.
Proof.
  intros Hrun.
  assert (Hall : Forall2 run_changes nodes (rs_nodes st)).
  { unfold executeFlow in Hrun.
    destruct (scheduleOrder nodes edges) as [order| |]; simpl in Hrun.
    - by apply execOrder_changes in Hrun.
    - simplify_eq. apply Forall2_run_changes_refl.
    - done. }
  split; [done|]. intros j n Hj Ha Hh.
  destruct (Forall2_lookup_l _ _ _ _ _ Hall Hj)
    as (n' & Hn' & Hi & Ht & Hp & Hd).
  rewrite Hn'. f_equal. destruct n as [i t p d], n' as [i' t' p' d'].
  simpl in *. subst. f_equal. apply map_eq. intros k.
  destruct (decide (d' !! k = d !! k)) as [|Hne]; [done|].
  destruct (Hd k Hne) as [[]|[]]; done.
Qed.

End RunProps.

(** ** Nodes that share an id *)

Lemma buildNodeMap_last nodes : ∀ i0 m k i,
  buildNodeMap nodes i0 m !! k = Some i →
  (m !! k = Some i ∧ k ∉ ids nodes) ∨
  (i0 ≤ i ∧ ∀ j, i - i0 < j → ids nodes !! j ≠ Some k).
Proof.
  induction nodes as [|n ns IH]; intros i0 m k i Hk; simpl in *.
  { left. split; [done|]. apply not_elem_of_nil. }
  apply IH in Hk as [[Hk Hout]|[Hle Hlast]].
  - destruct (decide (id n = k)) as [<-|Hne].
    + rewrite lookup_insert_eq in Hk. injection Hk as <-.
      right. split; [done|]. intros [|j] Hj; [lia|]. simpl.
      intros Hj'. apply Hout. apply list_elem_of_lookup. eauto.
    + rewrite lookup_insert_ne in Hk by done. left. split; [done|].
      fold (ids ns). rewrite elem_of_cons. intros [?|?]; done.
  - right. split; [lia|]. intros [|j] Hj; [lia|]. simpl.
    apply Hlast. lia.
Qed.

Lemma nodeMap_last nodes k i j :
  nodeMap nodes !! k = Some i → i < j → ids nodes !! j ≠ Some k.
Proof.
  intros [[Hk _]|[_ Hlast]]%buildNodeMap_last Hij.
  - by rewrite lookup_empty in Hk.
  - apply Hlast. lia.
Qed.

Section RunProps2.

Context {world : Type}.
Variable runScript : value → world → outcome unit * world.
Variable fetchText : value → value → world → outcome string * world.
Variable hostEval : value → value → value → world → completion * world.

Abbreviation execNode := (execNode world runScript fetchText hostEval).
Abbreviation execOrder := (execOrder world runScript fetchText hostEval).
Abbreviation executeFlow := (executeFlow world runScript fetchText hostEval).

Lemma execOrder_frame_index order nm j : ∀ st st',
  (∀ k, nm !! k ≠ Some j) →
  finalState (execOrder order nm st) = Some st' →
  rs_nodes st' !! j = rs_nodes st !! j.
Proof.
  induction order as [|k rest IH]; intros st st' Hnm Hrun; simpl in Hrun.
  { by simplify_eq. }
  destruct (nm !! k) as [i|] eqn:Hk; [|by apply IH].
  pose proof (execNode_frame runScript fetchText hostEval i st) as [_ Hother].
  assert (Hij : i ≠ j) by (intros ->; by apply (Hnm k)).
  destruct (execNode i st) as [st1|st1]; simpl in *.
  - rewrite <-(Hother j Hij). by apply IH.
  - simplify_eq. by apply Hother.
Qed.

(** X6.  When two nodes share an id, [nodeMap] holds the later one: a node
    that is followed in the node list by a node with the same id is never
    run, whatever the edges are; a run leaves it exactly as it was. *)
Theorem shadowed_node_is_never_run nodes edges w st j j' n :
  nodes !! j = Some n →
  j < j' → ids nodes !! j' = Some (id n) →
  finalState (executeFlow nodes edges w) = Some st →
  rs_nodes st !! j = Some n.
Proof.
  intros Hj Hlt Hj' Hrun. rewrite <-Hj.
  unfold executeFlow in Hrun.
  destruct (scheduleOrder nodes edges) as [order| |]; simpl in Hrun.
  - eapply (execOrder_frame_index order (nodeMap nodes) j
              (RunState nodes w [])); [|done].
    intros k Hk.
    pose proof (nodeMap_lookup _ _ _ Hk) as Hid.
    unfold ids in Hid. rewrite list_lookup_fmap, Hj in Hid.
    injection Hid as <-. by apply (nodeMap_last _ _ _ _ Hk Hlt).
  - by simplify_eq.
  - done.
Qed.

(** X10.  An arithmetic node that subtracts a negative number ends the flow:
    the text [a--b] does not parse, the exception leaves [executeFlow], and
    no node that comes after it in the order is run. *)
Theorem subtracting_a_negative_aborts k rest nm st i n x y :
  nm !! k = Some i →
  rs_nodes st !! i = Some n →
  type n = "arithmeticNode" →
  get (data n) "a" = VNum x →
  get (data n) "op" = VStr "-" →
  get (data n) "b" = VNum y →
  prints_minus y = true →
  execOrder (k :: rest) nm st = Aborted st.
Proof.
  intros Hk Hn Ht Ha Hop Hb Hy. simpl. rewrite Hk.
  unfold execNode. rewrite Hn, Ht.
  rewrite decide_False by done. rewrite decide_True by done.
  rewrite Ha, Hop, Hb. simpl. rewrite Hy. by destruct st.
Qed.

(** X11.  Running an arithmetic node whose operands are numbers and whose
    operator is one of the four a second time changes nothing: the result
    depends on the operands and the operator only, not on what [result]
    held. *)
Theorem arithmetic_rerun_changes_nothing i st n x o y :
  rs_nodes st !! i = Some n →
  type n = "arithmeticNode" →
  get (data n) "a" = VNum x →
  parseOperator (get (data n) "op") = Some o →
  get (data n) "b" = VNum y →
  execNode i (stepState (execNode i st)) = execNode i st.
Proof.
  intros Hn Ht Ha Hop Hb.
  assert (Hstep : ∀ st0 n0, rs_nodes st0 !! i = Some n0 →
    type n0 = "arithmeticNode" →
    get (data n0) "a" = VNum x →
    parseOperator (get (data n0) "op") = Some o →
    get (data n0) "b" = VNum y →
    execNode i st0
    = match evalTemplate x o y with
      | Returned v =>
          inl (RunState (setData i "result" v (rs_nodes st0)) (rs_world st0)
                        (rs_console st0))
      | Threw => inr st0
      end).
  { intros st0 n0 Hn0 Ht0 Ha0 Hop0 Hb0. unfold execNode. rewrite Hn0, Ht0.
    rewrite decide_False by done. rewrite decide_True by done.
    unfold evalArithmetic. rewrite Ha0, Hop0, Hb0.
    destruct (evalTemplate x o y); [done|]. by destruct st0. }
  rewrite (Hstep st n) by done.
  destruct (evalTemplate x o y) as [v|] eqn:Hv; cbn [stepState].
  - rewrite (Hstep _ (setField "result" v n)); cbn [rs_nodes rs_world
      rs_console].
    + do 2 f_equal. unfold setData. apply list_eq. intros j.
      destruct (decide (i = j)) as [<-|Hne].
      * rewrite !list_lookup_alter_eq, Hn. simpl. f_equal.
        unfold setField. simpl. f_equal. apply insert_insert_eq.
      * by rewrite !list_lookup_alter_ne.
    + unfold setData. by rewrite list_lookup_alter_eq, Hn.
    + done.
    + unfold get in *. simpl. by rewrite lookup_insert_ne.
    + unfold get in *. simpl. by rewrite lookup_insert_ne.
    + unfold get in *. simpl. by rewrite lookup_insert_ne.
  - by rewrite (Hstep st n).
Qed.

End RunProps2.

(** ** Edges to ids that no node has *)

Lemma relax_ignores_strangers keys tgts : ∀ ind ind' queue,
  agree_on keys ind ind' →
  (relax tgts ind queue).2 = (relax (filter (λ t, t ∈ keys) tgts) ind' queue).2 ∧
  agree_on keys (relax tgts ind queue).1
           (relax (filter (λ t, t ∈ keys) tgts) ind' queue).1.
Proof.
  induction tgts as [|tgt rest IH]; intros ind ind' queue [Hsame Hnone];
    [done|].
  rewrite filter_cons. cbn [relax].
  destruct (decide (tgt ∈ keys)) as [Hin|Hout].
  - cbn [relax].
    assert (Hc : ind_get tgt ind' = ind_get tgt ind)
      by (symmetry; by apply Hsame).
    rewrite Hc. set (c := decr (ind_get tgt ind)).
    assert (Hq : ind_get tgt (ind_set tgt c ind')
                 = ind_get tgt (ind_set tgt c ind)).
    { rewrite !ind_get_set. by case_decide. }
    rewrite Hq. apply IH. split.
    + intros v Hv. rewrite !ind_get_set. case_decide; [done|by apply Hsame].
    + intros v z Hv. rewrite ind_get_set.
      rewrite decide_False; [by apply Hnone|]. by intros [-> _].
  - assert (Hnz : ind_get tgt (ind_set tgt (decr (ind_get tgt ind)) ind)
                  ≠ Some (Cnt 0)).
    { rewrite ind_get_set. case_decide; [|by apply Hnone].
      destruct (ind_get tgt ind) as [[z|]|] eqn:Hz; simpl; try done.
      by apply Hnone in Hz. }
    rewrite decide_False by done. apply IH. split.
    + intros v Hv. rewrite ind_get_set.
      rewrite decide_False; [by apply Hsame|]. by intros [-> _].
    + intros v z Hv. rewrite ind_get_set. case_decide as Hvt; [|by apply Hnone].
      destruct Hvt as [-> _].
      destruct (ind_get tgt ind) as [[z'|]|] eqn:Hz; simpl; try done.
      by apply Hnone in Hz.
Qed.

Lemma kahn_ignores_strangers keys adj adj' fuel : ∀ ind ind' queue order,
  (∀ k, adj' !! k = filter (λ t, t ∈ keys) <$> adj !! k) →
  agree_on keys ind ind' →
  kahn fuel adj ind queue order = kahn fuel adj' ind' queue order.
Proof.
  intros ind ind' queue order Hadj. revert ind ind' queue order.
  induction fuel as [|fuel IH]; intros ind ind' queue order Hagree;
    destruct queue as [|k q]; simpl; try done.
  rewrite Hadj. destruct (adj !! k) as [tgts|]; simpl; [|done].
  destruct (relax_ignores_strangers keys tgts ind ind' q Hagree) as [Hq Hag].
  destruct (relax tgts ind q) as [ind1 q1].
  destruct (relax (filter _ tgts) ind' q) as [ind1' q1'].
  simpl in *. subst q1'. by apply IH.
Qed.

Lemma targetsOf_filter (keys : list string) (edges : list edge) s :
  targetsOf (filter (λ e, target e ∈ keys) edges) s
  = filter (λ t, t ∈ keys) (targetsOf edges s).
Proof.
  unfold targetsOf. induction edges as [|e es IH]; [done|].
  rewrite !filter_cons.
  destruct (decide (target e ∈ keys)) as [Ht|Ht];
    destruct (decide (source e = s)) as [Hs|Hs]; rewrite ?filter_cons;
    rewrite ?decide_True by done; rewrite ?decide_False by done;
    rewrite ?fmap_cons, ?filter_cons;
    rewrite ?decide_True by done; rewrite ?decide_False by done;
    by rewrite IH.
Qed.

Lemma indegree_filter (keys : list string) (edges : list edge) v :
  v ∈ keys →
  filter (λ e, target e = v) (filter (λ e, target e ∈ keys) edges)
  = filter (λ e, target e = v) edges.
Proof.
  intros Hv. rewrite list_filter_filter. apply list_filter_iff.
  intros e. split; [tauto|]. intros Ht. split; [done|]. by rewrite Ht.
Qed.

(** X2.  An edge whose target is the id of no node is ignored: when every
    edge leaves a node of the graph, the order is the one of the graph
    without the edges to missing targets. *)
Theorem dangling_targets_are_ignored nodes edges :
  (∀ e, e ∈ edges → source e ∈ ids nodes) →
  scheduleOrder nodes edges
  = scheduleOrder nodes (filter (λ e, target e ∈ ids nodes) edges).
Proof.
  intros Hsrc.
  set (edges' := filter (λ e, target e ∈ ids nodes) edges).
  rewrite !scheduleOrder_unfold.
  destruct (addEdges edges _ _) as [[adj ind]|] eqn:Hrun.
  2:{ apply addEdges_None in Hrun as (e & He & Hnone).
      rewrite initTables_adj, decide_True in Hnone; [done|by apply Hsrc]. }
  destruct (addEdges edges' _ _) as [[adj' ind']|] eqn:Hrun'.
  2:{ apply addEdges_None in Hrun' as (e & He & Hnone).
      apply list_elem_of_filter in He as [_ He].
      rewrite initTables_adj, decide_True in Hnone; [done|by apply Hsrc]. }
  assert (Hadj : ∀ k, adj' !! k = filter (λ t, t ∈ ids nodes) <$> adj !! k).
  { intros k. pose proof (initTables_adj nodes ∅ ∅ k) as Hk.
    case_decide as Hin.
    - rewrite (addEdges_adj _ _ _ _ _ k [] Hrun Hk).
      rewrite (addEdges_adj _ _ _ _ _ k [] Hrun' Hk). simpl.
      f_equal. apply targetsOf_filter.
    - rewrite lookup_empty in Hk.
      rewrite (addEdges_adj_None _ _ _ _ _ k Hrun Hk).
      by rewrite (addEdges_adj_None _ _ _ _ _ k Hrun' Hk). }
  assert (Hagree : agree_on (ids nodes) ind ind').
  { split.
    - intros v Hv. destruct (decide (v = proto)) as [->|Hp].
      { by rewrite !ind_get_proto. }
      rewrite !ind_get_plain by done.
      assert (H0 : (initTables nodes ∅ ∅).2 !! v = Some (Cnt 0))
        by (by rewrite initTables_ind, decide_True).
      rewrite (addEdges_ind _ _ _ _ _ v 0 Hrun H0 Hp).
      rewrite (addEdges_ind _ _ _ _ _ v 0 Hrun' H0 Hp).
      unfold edges'. by rewrite indegree_filter.
    - intros v z Hv Hz. assert (Hp := ind_get_Some_plain _ _ _ Hz).
      rewrite ind_get_plain in Hz by done.
      destruct (tables_keys _ _ _ _ Hrun) as [_ Hkeys]. by apply Hkeys in Hz. }
  assert (Hq : initQueue nodes ind = initQueue nodes ind').
  { rewrite !initQueue_spec. apply filter_ext_elem.
    intros v Hv. by rewrite (proj1 Hagree v Hv). }
  rewrite Hq.
  by rewrite (kahn_ignores_strangers (ids nodes) adj adj' _ ind ind').
Qed.

(** ** Every ordered id has a node *)

Lemma kahn_order_covered adj fuel : ∀ ind queue order res,
  covers adj ind queue →
  (∀ k, k ∈ order → is_Some (adj !! k)) →
  kahn fuel adj ind queue order = Ordered res →
  ∀ k, k ∈ res → is_Some (adj !! k).
Proof.
  induction fuel as [|fuel IH]; intros ind queue order res Hcov Hord Hrun;
    destruct queue as [|k q]; simpl in Hrun; try done;
    try (by simplify_eq).
  destruct Hcov as [Hq Hc].
  destruct (adj !! k) as [tgts|] eqn:Hk; [|done].
  pose proof (relax_covers adj tgts ind q) as Hcov'.
  destruct (relax tgts ind q) as [ind' q']. simpl in Hcov'.
  eapply IH; [|  |done].
  - apply Hcov'. split; [|done]. intros k' Hk'. apply Hq. by right.
  - intros k' [Hk'| ->%list_elem_of_singleton]%elem_of_app; [by apply Hord|].
    by rewrite Hk.
Qed.

Lemma buildNodeMap_is_Some nodes : ∀ i m k,
  k ∈ ids nodes ∨ is_Some (m !! k) → is_Some (buildNodeMap nodes i m !! k).
Proof.
  induction nodes as [|n ns IH]; intros i m k Hk; simpl.
  { destruct Hk as [Hk|Hk]; [by apply not_elem_of_nil in Hk|done]. }
  apply IH. destruct (decide (k = id n)) as [->|Hne].
  - right. by rewrite lookup_insert_eq.
  - rewrite lookup_insert_ne by done.
    destruct Hk as [Hk|Hk]; [|by right].
    apply elem_of_cons in Hk as [?|Hk]; [done|by left].
Qed.

(** X5.  On every graph, each id of the order is the id of a node, and
    [nodeMap] holds for it a node of the array with that id: the loop over
    the order never skips an id for want of a node. *)
Theorem ordered_ids_have_nodes nodes edges order k :
  scheduleOrder nodes edges = Scheduled order →
  k ∈ order →
  ∃ i n, nodeMap nodes !! k = Some i ∧ nodes !! i = Some n ∧ id n = k.
Proof.
  rewrite scheduleOrder_unfold. intros Hs Hk.
  destruct (addEdges edges _ _) as [[adj ind]|] eqn:Hrun; [|done].
  destruct (kahn _ adj ind _ []) as [res| |] eqn:Hkahn; try done.
  injection Hs as ->.
  destruct (tables_keys _ _ _ _ Hrun) as [Hadj _].
  assert (Hin : k ∈ ids nodes).
  { apply Hadj.
    eapply (kahn_order_covered _ _ _ _ [] order); [|  |done|done].
    - by eapply initial_covers.
    - intros k' Hk'. by apply not_elem_of_nil in Hk'. }
  destruct (buildNodeMap_is_Some nodes 0 ∅ k (or_introl Hin)) as [i Hi].
  fold (nodeMap nodes) in Hi.
  pose proof (nodeMap_lookup _ _ _ Hi) as Hid.
  unfold ids in Hid. rewrite list_lookup_fmap in Hid.
  destruct (nodes !! i) as [n|] eqn:Hn; [|done].
  injection Hid as Hid. by exists i, n.
Qed.

(** ** A flow with a cycle *)

Lemma nodeMap_of_node nodes j n :
  NoDup (ids nodes) → nodes !! j = Some n → nodeMap nodes !! id n = Some j.
Proof.
  intros Hnd Hj.
  assert (Hin : id n ∈ ids nodes).
  { unfold ids. apply list_elem_of_fmap. exists n. split; [done|].
    apply list_elem_of_lookup. eauto. }
  destruct (buildNodeMap_is_Some nodes 0 ∅ (id n) (or_introl Hin)) as [i Hi].
  fold (nodeMap nodes) in Hi. rewrite Hi. f_equal.
  apply nodeMap_lookup in Hi.
  apply (NoDup_lookup _ _ _ _ Hnd Hi).
  unfold ids. by rewrite list_lookup_fmap, Hj.
Qed.

Section CyclicFlow.

Context {world : Type}.
Variable runScript : value → world → outcome unit * world.
Variable fetchText : value → value → world → outcome string * world.
Variable hostEval : value → value → value → world → completion * world.

Abbreviation execNode := (execNode world runScript fetchText hostEval).
Abbreviation execOrder := (execOrder world runScript fetchText hostEval).
Abbreviation executeFlow := (executeFlow world runScript fetchText hostEval).

(** A node whose case of the [switch] ends without an exception holds what
    that case stores. *)
Lemma execNode_holds_run_result i st st1 n :
  rs_nodes st !! i = Some n →
  execNode i st = inl st1 →
  ∃ n', rs_nodes st1 !! i = Some n' ∧ id n' = id n ∧ holds_run_result n n'.
Proof.
  intros Hn. unfold execNode, holds_run_result. rewrite Hn.
  destruct (decide (type n = "codeNode")) as [Hc|Hc].
  { destruct (runScript _ _) as [[[]|msg] w]; intros [= <-]; simpl;
      (exists n; split_and!; [done|done|congruence|congruence]). }
  destruct (decide (type n = "arithmeticNode")) as [Ha|Ha].
  { destruct (evalArithmetic _ _ _ _ _ _) as [[v|] w] eqn:Hev; [|done].
    intros [= <-]; simpl. exists (setField "result" v n).
    split_and!; [|done| |congruence].
    - unfold setData. by rewrite list_lookup_alter_eq, Hn.
    - intros _ x o y Hx Ho Hy. unfold evalArithmetic in Hev.
      rewrite Hx, Ho, Hy in Hev. injection Hev as Hev _. rewrite Hev.
      unfold get. simpl. by rewrite lookup_insert_eq. }
  destruct (decide (type n = "httpNode")) as [Hh|Hh].
  { destruct (fetchText _ _ _) as [[body|msg] w]; intros [= <-]; simpl.
    - exists (setField "response" (VStr body) n). split_and!; [|done|done|].
      + unfold setData. by rewrite list_lookup_alter_eq, Hn.
      + intros _. exists body. unfold get. simpl. by rewrite lookup_insert_eq.
    - exists (setField "response" (VStr msg) n). split_and!; [|done|done|].
      + unfold setData. by rewrite list_lookup_alter_eq, Hn.
      + intros _. exists msg. unfold get. simpl. by rewrite lookup_insert_eq. }
  intros [= <-]. exists n. split_and!; [done|done|congruence|congruence].
Qed.

(** When the loop over [order] runs to its end, every node whose id is in
    the order has been run, and no later iteration has touched it. *)
Lemma execOrder_runs order nm : ∀ st st' j n,
  NoDup order →
  (∀ k i, nm !! k = Some i → ids (rs_nodes st) !! i = Some k) →
  execOrder order nm st = Completed st' →
  rs_nodes st !! j = Some n → nm !! id n = Some j → id n ∈ order →
  ∃ n', rs_nodes st' !! j = Some n' ∧ holds_run_result n n'.
Proof.
  induction order as [|k rest IH]; intros st st' j n Hnd Hnm Hrun Hj Hmap Hin.
  { by apply not_elem_of_nil in Hin. }
  apply NoDup_cons in Hnd as [Hk Hnd]. simpl in Hrun.
  destruct (nm !! k) as [i|] eqn:Hi.
  - pose proof (execNode_frame runScript fetchText hostEval i st)
      as [Hids Hother].
    destruct (execNode i st) as [st1|st1] eqn:Hexec; [|done]. simpl in *.
    assert (Hnm1 : ∀ k' i', nm !! k' = Some i' →
                            ids (rs_nodes st1) !! i' = Some k').
    { intros k' i' Hk'. rewrite Hids. by apply Hnm. }
    destruct (decide (k = id n)) as [->|Hne].
    + assert (i = j) as -> by congruence.
      destruct (execNode_holds_run_result _ _ _ _ Hj Hexec)
        as (n' & Hn' & Hid & Hran).
      exists n'. split; [|done].
      eapply (execOrder_frame runScript fetchText hostEval rest nm st1);
        [done|by rewrite Hrun|done|by rewrite Hid].
    + apply elem_of_cons in Hin as [?|Hin]; [done|].
      assert (Hij : i ≠ j).
      { intros ->. apply Hnm in Hi. unfold ids in Hi.
        rewrite list_lookup_fmap, Hj in Hi. simpl in Hi. congruence. }
      eapply (IH st1); try done. by rewrite Hother.
  - apply elem_of_cons in Hin as [Heq|Hin]; [congruence|].
    by eapply IH.
Qed.

(** C1, as the code has it.  On a graph with unique ids, none of them
    ["__proto__"], whose edges all join two nodes of the graph, and that
    contains a cycle, [executeFlow] reports no cycle: Kahn's loop still
    yields an order, which holds every node without an incoming edge and no
    node of a cycle and is shorter than the node list.  The nodes of that
    order are executed: when the run reaches its end, every arithmetic node
    of the order with two numbers around one of the four operators holds
    the value of its expression in [result], and every http node of the
    order holds a text in [response].  A node that is not in the order, so
    every node on a cycle, is not executed: however the run ends, it is
    left exactly as it was. *)
Theorem cyclic_flow_runs_the_rest nodes edges w :
  wf_graph nodes edges →
  (∃ v, on_cycle edges v) →
  ∃ order,
    scheduleOrder nodes edges = Scheduled order ∧
    length order < length nodes ∧
    (∀ v, v ∈ ids nodes → indegreeOf edges v = 0 → v ∈ order) ∧
    (∀ v, on_cycle edges v → v ∉ order) ∧
    (∀ st, executeFlow nodes edges w = Completed st →
       ∀ j n, nodes !! j = Some n → id n ∈ order →
              ∃ n', rs_nodes st !! j = Some n' ∧ holds_run_result n n') ∧
    (∀ st, finalState (executeFlow nodes edges w) = Some st →
       ∀ j n, nodes !! j = Some n → id n ∉ order →
              rs_nodes st !! j = Some n).
Proof.
  intros Hwf [c Hc].
  destruct (schedule_wf _ _ Hwf) as (order & ind & rest & Hs & Hinv & Hrest).
  assert (Hrun : executeFlow nodes edges w
                 = execOrder order (nodeMap nodes) (RunState nodes w []))
    by (unfold executeFlow; by rewrite Hs).
  assert (Hnd : NoDup order) by (by eapply inv_order_nodup).
  assert (Hcyc : ∀ v, on_cycle edges v → v ∉ order)
    by (intros v; by eapply cycle_not_ordered).
  exists order. split_and!; [done| | |done| |].
  - assert (Hsub : c :: order ⊆+ ids nodes).
    { apply NoDup_submseteq; [constructor; [by apply Hcyc|done]|].
      intros v [->|Hv]%elem_of_cons; [by eapply on_cycle_is_node|].
      apply (inv_ids _ _ _ _ _ Hinv). by rewrite app_nil_r. }
    apply submseteq_length in Hsub. unfold ids in Hsub.
    rewrite length_fmap in Hsub. simpl in Hsub. lia.
  - intros v Hv H0. rewrite Hrest. apply elem_of_app. left.
    by apply list_elem_of_filter.
  - intros st Hst j n Hj Hin. rewrite Hrun in Hst.
    eapply (execOrder_runs order (nodeMap nodes) (RunState nodes w []));
      [done| |done|done| |done].
    + intros k i. apply nodeMap_lookup.
    + apply nodeMap_of_node; [apply (wf_nodup _ _ Hwf)|done].
  - intros st Hst j n Hj Hout. rewrite Hrun in Hst.
    eapply (execOrder_frame runScript fetchText hostEval order (nodeMap nodes)
              (RunState nodes w [])); [|done|done|done].
    intros k i. apply nodeMap_lookup.
Qed.

End CyclicFlow.

(** The flow of the sample graph with the cycle of the nodes 2 and 3. *)
Lemma cyclic_flow_runs_the_rest_witness :
  ∃ order,
    scheduleOrder Sample.cyclicNodes Sample.cyclicEdges = Scheduled order ∧
    length order < length Sample.cyclicNodes ∧
    (∀ v, v ∈ ids Sample.cyclicNodes →
          indegreeOf Sample.cyclicEdges v = 0 → v ∈ order) ∧
    (∀ v, on_cycle Sample.cyclicEdges v → v ∉ order) ∧
    (∀ st, Sample.executeFlow Sample.cyclicNodes Sample.cyclicEdges tt
           = Completed st →
       ∀ j n, Sample.cyclicNodes !! j = Some n → id n ∈ order →
              ∃ n', rs_nodes st !! j = Some n' ∧ holds_run_result n n') ∧
    (∀ st, finalState
             (Sample.executeFlow Sample.cyclicNodes Sample.cyclicEdges tt)
           = Some st →
       ∀ j n, Sample.cyclicNodes !! j = Some n → id n ∉ order →
              rs_nodes st !! j = Some n).
Proof.
  apply (cyclic_flow_runs_the_rest Sample.runScript Sample.fetchText
           Sample.hostEval Sample.cyclicNodes Sample.cyclicEdges tt).
  - apply cyclic_wf.
  - exists "2". apply cyclic_on_cycle.
Defined.

(** ** Loading and starting up *)

(** X12.  Loading throws for the document [null] and for no other document;
    what a load stores for the nodes and for the edges is never a falsy
    value, and a document that is no object loads as the empty graph. *)
Theorem load_outcomes flow :
  match loadFlow (Some (Some flow)) with
  | Loaded ns es =>
      flow ≠ JNull ∧ truthy ns = true ∧ truthy es = true ∧
      ((∀ fields, flow ≠ JObj fields) → ns = JArr [] ∧ es = JArr [])
  | LoadThrew => flow = JNull
  | NoFile => False
  end.
Proof.
  assert (Ht : ∀ v, truthy (orEmpty v) = true).
  { intros [j|]; simpl; [|done]. by destruct (truthy j) eqn:Hj. }
  destruct flow as [|b|x|s|l|fields]; simpl; try done.
  split_and!; try done; try apply Ht. intros H. by destruct (H fields).
Qed.

(** X13.  Starting up reads a stored document as a load reads a file, with
    two differences.  The stored document [null] gives the initial graph
    where a load throws.  For every other document the edges are the same,
    and so are the nodes when the document is an object whose [nodes] are
    truthy; when it is not (no object, no [nodes], or falsy [nodes]), the
    start-up gives the initial node where a load gives no nodes. *)
Theorem startup_reads_like_load stored :
  ∃ ns es,
    startup (Some (Some stored)) = Some (ns, es) ∧
    match loadFlow (Some (Some stored)) with
    | Loaded ns' es' =>
        es = es' ∧
        (∀ fields v, stored = JObj fields → fields !! "nodes" = Some v →
                     truthy v = true → ns = v ∧ ns' = v) ∧
        ((∀ fields v, stored = JObj fields → fields !! "nodes" = Some v →
                      truthy v = false) →
         ns = initialNodesJson ∧ ns' = JArr [])
    | LoadThrew => stored = JNull ∧ ns = initialNodesJson ∧ es = JArr []
    | NoFile => False
    end.
Proof.
  destruct stored as [|b|x|s|l|fields]; simpl; eexists _, _;
    (split; [reflexivity|]); try (split_and!; done).
  split_and!; [done| |].
  - intros fields' v [= <-] Hv Ht. rewrite Hv. simpl. by rewrite Ht.
  - intros Hf. destruct (fields !! "nodes") as [v|] eqn:Hv; simpl; [|done].
    by rewrite (Hf fields v eq_refl Hv).
Qed.

(** ** The autosave *)

Lemma jsonId_nodeToJson n : jsonId (nodeToJson n) = Some (id n).
Proof. done. Qed.

Lemma jsonEdge_edgeToJson e : jsonEdge (edgeToJson e) = Some e.
Proof. by destruct e. Qed.

Lemma omap_fmap_Some {A B} (f : A → option B) (g : B → A) (l : list B) :
  (∀ x, f (g x) = Some x) → omap f (g <$> l) = l.
Proof.
  intros Hfg. induction l as [|x l IH]; [done|].
  csimpl. by rewrite Hfg, IH.
Qed.

Lemma jsonDataField_nodes (nodes : list node) i n k :
  nodes !! i = Some n →
  jsonDataField (JArr (nodeToJson <$> nodes)) i k
  = data n !! k ≫= valueToJson.
Proof.
  intros Hn. simpl. rewrite list_lookup_fmap, Hn. simpl. apply lookup_omap.
Qed.

(** X14.  The autosave and the next start-up restore the graph: the same
    node ids in the same order, also when there is no node left, and the
    same edges; each entry of a node's data comes back as [JSON] writes it,
    an entry that holds [undefined] not at all. *)
Theorem autosave_restores_the_graph nodes edges :
  ∃ ns es,
    startup (Some (Some (autosaved nodes edges))) = Some (ns, es) ∧
    jsonIds ns = ids nodes ∧
    jsonEdges es = edges ∧
    ∀ i n k, nodes !! i = Some n →
             jsonDataField ns i k = data n !! k ≫= valueToJson.
Proof.
  exists (JArr (nodeToJson <$> nodes)), (JArr (edgeToJson <$> edges)).
  split_and!.
  - done.
  - simpl. unfold ids. induction nodes as [|n ns IH]; [done|].
    csimpl. by rewrite IH.
  - simpl. apply omap_fmap_Some, jsonEdge_edgeToJson.
  - intros i n k Hn. by apply jsonDataField_nodes.
Qed.

(** ** The code editor *)

Lemma editCode_lookup k text (nodes : list node) j :
  editCode k text nodes !! j
  = (λ n, if decide (id n = k)
          then {| id := id n; type := type n; position := position n;
                  data := {["code" := VStr text]} |}
          else n) <$> nodes !! j.
Proof. unfold editCode. apply list_lookup_fmap. Qed.

Lemma editCode_ids k text nodes : ids (editCode k text nodes) = ids nodes.
Proof.
  unfold ids, editCode. rewrite <-list_fmap_compose.
  apply list_fmap_ext. intros j n _. simpl. by case_decide.
Qed.

(** X16.  Editing the script of node [k] replaces the data of every node
    with that id by an object that holds the new text under [code] and
    nothing else; the other nodes, the ids and so the order of execution are
    as before, and a [k] that no node has changes nothing. *)
Theorem edit_code_replaces_the_data k text nodes :
  ids (editCode k text nodes) = ids nodes ∧
  (∀ edges, scheduleOrder (editCode k text nodes) edges
            = scheduleOrder nodes edges) ∧
  (∀ j n, nodes !! j = Some n → id n ≠ k →
          editCode k text nodes !! j = Some n) ∧
  (∀ j n key, nodes !! j = Some n → id n = k →
              field (editCode k text nodes) j key
              = if decide (key = "code") then VStr text else VUndefined) ∧
  (k ∉ ids nodes → editCode k text nodes = nodes).
Proof.
  split_and!.
  - apply editCode_ids.
  - intros edges. apply scheduleOrder_ids, editCode_ids.
  - intros j n Hn Hne. rewrite editCode_lookup, Hn. simpl.
    by rewrite decide_False.
  - intros j n key Hn Hk. unfold field. rewrite editCode_lookup, Hn. simpl.
    rewrite decide_True by done. unfold get. simpl.
    destruct (decide (key = "code")) as [->|Hne].
    + by rewrite lookup_singleton_eq.
    + by rewrite lookup_singleton_ne.
  - intros Hout. apply list_eq. intros j. rewrite editCode_lookup.
    destruct (nodes !! j) as [n|] eqn:Hn; [|done]. simpl.
    rewrite decide_False; [done|]. intros <-. apply Hout.
    unfold ids. apply list_elem_of_fmap. exists n. split; [done|].
    apply list_elem_of_lookup. eauto.
Qed.

(** X17.  Of two edits of the same node the later one stands, and edits of
    nodes with different ids can be made in either order. *)
Theorem edit_code_composes k k' text text' nodes :
  editCode k text' (editCode k text nodes) = editCode k text' nodes ∧
  (k ≠ k' →
   editCode k text (editCode k' text' nodes)
   = editCode k' text' (editCode k text nodes)).
Proof.
  split; [|intros Hkk]; apply list_eq; intros j;
    rewrite !editCode_lookup; destruct (nodes !! j) as [n|]; simpl;
    try done; f_equal; repeat (case_decide; simpl in *); try done;
    congruence.
Qed.

Section RestartProps.

Context {world : Type}.
Variable runScript : value → world → outcome unit * world.
Variable fetchText : value → value → world → outcome string * world.
Variable hostEval : value → value → value → world → completion * world.

Abbreviation execNode := (execNode world runScript fetchText hostEval).

(** X15.  The quotient that a division by zero stores does not outlast the
    autosave: [JSON] writes [Infinity], [-Infinity] and [NaN] as [null], so
    after the next start-up the [result] of the node is [null]. *)
Theorem quotient_by_zero_is_null_after_restart i st n x y edges :
  rs_nodes st !! i = Some n →
  type n = "arithmeticNode" →
  get (data n) "a" = VNum x →
  get (data n) "op" = VStr "/" →
  get (data n) "b" = VNum y →
  Number.is_zero y = true →
  ∃ st' ns es,
    execNode i st = inl st' ∧
    startup (Some (Some (autosaved (rs_nodes st') edges))) = Some (ns, es) ∧
    jsonDataField ns i "result" = Some JNull.
Proof.
  intros Hn Ht Ha Hop Hb Hy.
  set (r := Number.div (reread x) (S754_zero false)).
  exists (RunState (setData i "result" (VNum r) (rs_nodes st))
                   (rs_world st) (rs_console st)).
  exists (JArr (nodeToJson <$> setData i "result" (VNum r) (rs_nodes st))),
    (JArr (edgeToJson <$> edges)).
  split_and!.
  - unfold execNode. rewrite Hn, Ht.
    rewrite decide_False by done. rewrite decide_True by done.
    rewrite Ha, Hop, Hb. destruct y; try done.
  - reflexivity.
  - rewrite (jsonDataField_nodes _ i (setField "result" (VNum r) n))
      by (unfold setData; by rewrite list_lookup_alter_eq, Hn).
    cbn [setField data]. rewrite lookup_insert_eq. cbn. f_equal.
    unfold numberToJson.
    destruct (div_by_zero_cases x) as [Hr|[Hr|Hr]]; fold r in Hr;
      by rewrite Hr.
Qed.

End RestartProps.

(** ** The further properties on sample inputs *)

Lemma ordered_iff_not_downstream_witness :
  ∃ order,
    scheduleOrder Sample.cyclicNodes Sample.cyclicEdges = Scheduled order ∧
    ∀ v, v ∈ order ↔
         v ∈ ids Sample.cyclicNodes ∧
         ¬ downstream_of_cycle Sample.cyclicEdges v.
Proof. apply ordered_iff_not_downstream, cyclic_wf. Defined.


Lemma rerun_has_same_order_witness :
  ∃ st,
    finalState (Sample.executeFlow Sample.throwingNodes Sample.throwingEdges tt)
    = Some st ∧
    ids (rs_nodes st) = ids Sample.throwingNodes ∧
    scheduleOrder (rs_nodes st) Sample.throwingEdges
    = scheduleOrder Sample.throwingNodes Sample.throwingEdges.
Proof.
  eexists. split; [reflexivity|].
  apply (rerun_has_same_order Sample.runScript Sample.fetchText
           Sample.hostEval Sample.throwingNodes Sample.throwingEdges tt).
  reflexivity.
Defined.

Lemma run_changes_results_only_witness :
  ∃ st,
    finalState (Sample.executeFlow Sample.throwingNodes Sample.throwingEdges tt)
    = Some st ∧
    Forall2 run_changes Sample.throwingNodes (rs_nodes st) ∧
    ∀ j n, Sample.throwingNodes !! j = Some n →
           type n ≠ "arithmeticNode" → type n ≠ "httpNode" →
           rs_nodes st !! j = Some n.
Proof.
  eexists. split; [reflexivity|].
  apply (run_changes_results_only Sample.runScript Sample.fetchText
           Sample.hostEval Sample.throwingNodes Sample.throwingEdges tt).
  reflexivity.
Defined.

Lemma shadowed_node_is_never_run_witness :
  ∃ st,
    finalState (Sample.executeFlow Inputs.twinNodes [] tt) = Some st ∧
    rs_nodes st !! 0 = Some (Sample.arithmetic "2" 1 "+" 1).
Proof.
  eexists. split; [reflexivity|].
  apply (shadowed_node_is_never_run Sample.runScript Sample.fetchText
           Sample.hostEval Inputs.twinNodes [] tt _ 0 1);
    [reflexivity|lia|reflexivity|reflexivity].
Defined.

Lemma subtracting_a_negative_aborts_witness :
  execOrder unit Sample.runScript Sample.fetchText Sample.hostEval
    ["1"; "2"] (nodeMap Inputs.minusNodes) (RunState Inputs.minusNodes tt [])
  = Aborted (RunState Inputs.minusNodes tt []).
Proof.
  apply (subtracting_a_negative_aborts Sample.runScript Sample.fetchText
           Sample.hostEval "1" ["2"] (nodeMap Inputs.minusNodes)
           (RunState Inputs.minusNodes tt []) 0
           (Sample.arithmetic "1" 1 "-" (-1)) (ofZ 1) (ofZ (-1)));
    reflexivity.
Defined.

Lemma arithmetic_rerun_changes_nothing_witness :
  Sample.execNode 0
    (stepState (Sample.execNode 0 (RunState [Sample.productNode] tt [])))
  = Sample.execNode 0 (RunState [Sample.productNode] tt []).
Proof.
  apply (arithmetic_rerun_changes_nothing Sample.runScript Sample.fetchText
           Sample.hostEval 0 (RunState [Sample.productNode] tt [])
           Sample.productNode (ofZ 6) Times (ofZ 3)); reflexivity.
Defined.

Lemma dangling_targets_are_ignored_witness :
  scheduleOrder Sample.throwingNodes Inputs.strangerEdges
  = scheduleOrder Sample.throwingNodes
      (filter (λ e, target e ∈ ids Sample.throwingNodes) Inputs.strangerEdges).
Proof.
  apply dangling_targets_are_ignored. apply Forall_forall. compute_done.
Defined.

Lemma quotient_by_zero_is_null_after_restart_witness :
  ∃ st' ns es,
    Sample.execNode 0 (RunState [Sample.quotientNode] tt []) = inl st' ∧
    startup (Some (Some (autosaved (rs_nodes st') []))) = Some (ns, es) ∧
    jsonDataField ns 0 "result" = Some JNull.
Proof.
  apply (quotient_by_zero_is_null_after_restart Sample.runScript
           Sample.fetchText Sample.hostEval 0
           (RunState [Sample.quotientNode] tt []) Sample.quotientNode
           (ofZ 4) (ofZ 0) []); reflexivity.
Defined.

Lemma adds_keep_ids_unique_witness :
  NoDup (ids (acts [AddCode; AddArithmetic; AddHttp] (initialNodes, [])).1).
Proof. apply adds_keep_ids_unique. by repeat constructor. Defined.

Lemma ordered_ids_have_nodes_witness :
  ∃ i n, nodeMap Inputs.twinNodes !! "2" = Some i ∧
         Inputs.twinNodes !! i = Some n ∧ id n = "2".
Proof.
  apply (ordered_ids_have_nodes Inputs.twinNodes [] ["2"; "2"] "2");
    [reflexivity|by left].
Defined.

Lemma dangling_source_aborts_witness :
  Sample.executeFlow Sample.throwingNodes [Edge "ghost" "1"] tt
  = Aborted (RunState Sample.throwingNodes tt []).
Proof.
  apply (dangling_source_aborts Sample.runScript Sample.fetchText
           Sample.hostEval Sample.throwingNodes [Edge "ghost" "1"] tt).
  exists (Edge "ghost" "1"). split; [by left|compute_done].
Defined.

Lemma edit_code_replaces_the_data_witness :
  editCode "3" "1 + 1" Sample.throwingNodes = Sample.throwingNodes ∧
  field (editCode "1" "1 + 1" Sample.throwingNodes) 0 "code" = VStr "1 + 1" ∧
  editCode "1" "1 + 1" Sample.throwingNodes !! 1
  = Some (Sample.arithmetic "2" 6 "*" 3).
Proof.
  destruct (edit_code_replaces_the_data "3" "1 + 1" Sample.throwingNodes)
    as (_ & _ & _ & _ & Habsent).
  destruct (edit_code_replaces_the_data "1" "1 + 1" Sample.throwingNodes)
    as (_ & _ & Hother & Hfield & _).
  split_and!.
  - apply Habsent. compute_done.
  - apply (Hfield 0 (Sample.code "1" "throw new Error('boom')") "code");
      reflexivity.
  - apply Hother; [reflexivity|done].
Defined.

Lemma edit_code_composes_witness :
  editCode "1" "b" (editCode "2" "a" Sample.throwingNodes)
  = editCode "2" "a" (editCode "1" "b" Sample.throwingNodes).
Proof.
  apply (proj2 (edit_code_composes "1" "2" "b" "a" Sample.throwingNodes)).
  done.
Defined.

(** The stored document [{ "nodes": null }]: the start-up gives the initial
    node, a load gives no nodes. *)
Lemma startup_reads_like_load_witness :
  startup (Some (Some (JObj {["nodes" := JNull]})))
  = Some (initialNodesJson, JArr []) ∧
  loadFlow (Some (Some (JObj {["nodes" := JNull]})))
  = Loaded (JArr []) (JArr []).
Proof.
  destruct (startup_reads_like_load (JObj {["nodes" := JNull]}))
    as (ns & es & Hs & Hl).
  assert (Hload : loadFlow (Some (Some (JObj {["nodes" := JNull]})))
                  = Loaded (JArr []) (JArr [])) by reflexivity.
  rewrite Hload in Hl. destruct Hl as (-> & _ & Hfalsy).
  destruct Hfalsy as [-> _]; [|by rewrite Hs].
  intros fields v [= <-] Hv.
  apply lookup_singleton_Some in Hv as [_ <-]. reflexivity.
Defined.
